(** * Cannon simulator: projectile motion, collisions and launch control

    A shallow embedding of [main.cpp].  The program computes with the C++
    type [float]; its arithmetic is kept behind the interface [FloatOps] so
    that the program text is written once and read at two instances:

    - [binary32]: IEEE-754 single precision (24-bit significand, round to
      nearest even), built on the Standard Library's [SpecFloat]; this is the
      arithmetic the compiled program runs, and every definition evaluates
      with it;
    - [ideal]: the real numbers, the arithmetic in which the design reasons
      (no rounding, no NaN).

    Properties of the control flow are proved for every instance; properties
    that need the laws of an ordered field are proved at [ideal], and the
    program is run at [binary32] on the concrete inputs they mention. *)

From Stdlib Require Import Bool List ZArith QArith Reals Lra Lia.
From Stdlib Require Import SpecFloat.
From Stdlib Require String.
Import String.StringSyntax.
Import ListNotations.

Set Implicit Arguments.

(** ** The arithmetic of [float] *)

Delimit Scope string_scope with string.

Declare Scope fl_scope.
Delimit Scope fl_scope with fl.

(** [flit q] is the value of the decimal literal [q] (also of an [int]
    converted to [float]); [flt] and [fle] are [<] and [<=]. *)
Class FloatOps : Type := {
  float : Type;
  fadd : float -> float -> float;
  fsub : float -> float -> float;
  fmul : float -> float -> float;
  fdiv : float -> float -> float;
  fneg : float -> float;
  fsqrt : float -> float;
  flt : float -> float -> bool;
  fle : float -> float -> bool;
  flit : Q -> float
}.

Arguments flit {_} q%_Q.

Infix "+" := fadd : fl_scope.
Infix "-" := fsub : fl_scope.
Infix "*" := fmul : fl_scope.
Infix "/" := fdiv : fl_scope.
Notation "- a" := (fneg a) : fl_scope.
Infix "<?" := flt (at level 70) : fl_scope.
Infix "<=?" := fle (at level 70) : fl_scope.
Notation "a >? b" := (flt b a) (at level 70, only parsing) : fl_scope.
Notation "a >=? b" := (fle b a) (at level 70, only parsing) : fl_scope.

(** [<cmath>]: the two library functions [fireProjectile] calls. *)
Module cmath.
Class Libm (ops : FloatOps) : Type := {
  cos : float -> float;
  sin : float -> float
}.
End cmath.

(** [<algorithm>]: [std::min (a, b)] is [(b < a) ? b : a] and
    [std::max (a, b)] is [(a < b) ? b : a]. *)
Module std.
Section MinMax.
Context {ops : FloatOps}.
Local Open Scope fl_scope.

Definition min (a b : float) : float := if b <? a then b else a.
Definition max (a b : float) : float := if a <? b then b else a.

(** [std::remove_if] followed by [erase]: the elements that do not satisfy
    the predicate, in their order. *)
Definition erase_remove_if {A : Type} (pred : A -> bool) (v : list A) : list A :=
  filter (fun a => negb (pred a)) v.
End MinMax.
End std.

(** [glm::vec2] with the operators the program uses. *)
Module glm.
Section Vec2.
Context {ops : FloatOps}.
Local Open Scope fl_scope.

Record vec2 : Type := Vec2 { x : float; y : float }.

(** [a + b] *)
Definition add (a b : vec2) : vec2 := Vec2 (x a + x b) (y a + y b).
(** [v * s] *)
Definition scale (v : vec2) (s : float) : vec2 := Vec2 (x v * s) (y v * s).
(** [glm::dot]: the sum of the componentwise products. *)
Definition dot (a b : vec2) : float := x a * x b + y a * y b.
(** [glm::length (v)] is [sqrt (dot (v, v))]. *)
Definition length (v : vec2) : float := fsqrt (dot v v).
End Vec2.
Arguments vec2 : clear implicits.
Arguments vec2 {ops}.
End glm.

(** ** Constants *)

Section Constants.
Context {ops : FloatOps}.

Definition WINDOW_WIDTH : Z := 800.
Definition WINDOW_HEIGHT : Z := 600.
Definition GRAVITY : float := flit 9.81.
Definition PI : float := flit 3.14159265359.

(** An [int] operand of a [float] operation is converted to [float]. *)
Definition of_int (n : Z) : float := flit (inject_Z n).
End Constants.

(** ** The class [Projectile] *)

Section ProjectileClass.
Context {ops : FloatOps}.
Local Open Scope fl_scope.

Record Projectile : Type := mkProjectile {
  position : glm.vec2;
  velocity : glm.vec2;
  radius : float;
  active : bool;
  timeAlive : float
}.

(** The constructor [Projectile (pos, vel, r)]. *)
Definition new_Projectile (pos vel : glm.vec2) (r : float) : Projectile :=
  mkProjectile pos vel r true (flit 0.0).

(** *** A small statement language over the object's fields

    [update] mutates [*this] field by field; a statement is a function
    from the object before to the object after, and an assigned expression
    reads the object as it is when the assignment runs. *)
Definition stmt : Type := Projectile -> Projectile.
Definition expr (A : Type) : Type := Projectile -> A.

Definition skip : stmt := fun p => p.
Definition semi (s1 s2 : stmt) : stmt := fun p => s2 (s1 p).
Definition ifelse (c : expr bool) (s1 s2 : stmt) : stmt :=
  fun p => if c p then s1 p else s2 p.

Definition set_position (e : expr glm.vec2) : stmt :=
  fun p => mkProjectile (e p) (velocity p) (radius p) (active p) (timeAlive p).
Definition set_velocity (e : expr glm.vec2) : stmt :=
  fun p => mkProjectile (position p) (e p) (radius p) (active p) (timeAlive p).
Definition set_active (e : expr bool) : stmt :=
  fun p => mkProjectile (position p) (velocity p) (radius p) (e p) (timeAlive p).
Definition set_timeAlive (e : expr float) : stmt :=
  fun p => mkProjectile (position p) (velocity p) (radius p) (active p) (e p).

Definition set_position_x (e : expr float) : stmt :=
  set_position (fun p => glm.Vec2 (e p) (glm.y (position p))).
Definition set_position_y (e : expr float) : stmt :=
  set_position (fun p => glm.Vec2 (glm.x (position p)) (e p)).
Definition set_velocity_x (e : expr float) : stmt :=
  set_velocity (fun p => glm.Vec2 (e p) (glm.y (velocity p))).
Definition set_velocity_y (e : expr float) : stmt :=
  set_velocity (fun p => glm.Vec2 (glm.x (velocity p)) (e p)).
End ProjectileClass.

Notation "s1 ;; s2" := (semi s1 s2) (at level 61, left associativity).
Notation "'IF' c 'THEN' s1 'ELSE' s2" := (ifelse c s1 s2) (at level 60, c at level 99, s1 at level 61, s2 at level 61).

(** ** [Projectile::update] *)

Section Update.
Context {ops : FloatOps}.
Local Open Scope fl_scope.

(** "Check if projectile hits the ground" *)
Definition ground_collision : stmt :=
  IF (fun p => glm.y (position p) <=? radius p) THEN
    (set_position_y (fun p => radius p) ;;
     set_velocity (fun p => glm.scale (velocity p) (flit 0.5)) ;;
     (IF (fun p => glm.length (velocity p) <? flit 1.0) THEN
        set_active (fun _ => false)
      ELSE
        set_velocity_y (fun p => - glm.y (velocity p) * flit 0.7)))
  ELSE skip.

(** "Check if projectile hits the wall" *)
Definition wall_collision : stmt :=
  IF (fun p => glm.x (position p) >=? of_int WINDOW_WIDTH - radius p) THEN
    (set_position_x (fun p => of_int WINDOW_WIDTH - radius p) ;;
     set_velocity_x (fun p => glm.x (velocity p) * - flit 0.7))
  ELSE skip.

Definition update (deltaTime : float) : stmt :=
  set_velocity_y (fun p => glm.y (velocity p) - GRAVITY * deltaTime) ;;
  set_position (fun p => glm.add (position p) (glm.scale (velocity p) deltaTime)) ;;
  set_timeAlive (fun p => timeAlive p + deltaTime) ;;
  ground_collision ;;
  wall_collision.

(** The object the three integration assignments of [update] are expected
    to leave, written field by field: the velocity after gravity, the
    position advanced by that velocity, the clock advanced.  It is compared
    with [update] in [update_unfold]. *)
Definition integrated (deltaTime : float) (p : Projectile) : Projectile :=
  let vy' := glm.y (velocity p) - GRAVITY * deltaTime in
  mkProjectile
    (glm.Vec2 (glm.x (position p) + glm.x (velocity p) * deltaTime)
              (glm.y (position p) + vy' * deltaTime))
    (glm.Vec2 (glm.x (velocity p)) vy')
    (radius p) (active p) (timeAlive p + deltaTime).

(** The loop "Update projectiles" of [main]: [update] runs on the active
    elements only. *)
Definition step (deltaTime : float) (ps : list Projectile) : list Projectile :=
  map (fun p => if active p then update deltaTime p else p) ps.

(** The predicate handed to [std::remove_if] in [main]. *)
Definition expired (p : Projectile) : bool :=
  negb (active p) || (timeAlive p >? flit 10.0).

(** "Remove inactive projectiles" *)
Definition prune (ps : list Projectile) : list Projectile :=
  std.erase_remove_if expired ps.
End Update.

(** ** The cannon, the keyboard and the frame loop *)

(** What [glfwGetKey] answers for the four arrow keys during one frame. *)
Record Keyboard : Type := {
  KEY_UP : bool;
  KEY_DOWN : bool;
  KEY_RIGHT : bool;
  KEY_LEFT : bool
}.

Variant Key : Type := KEY_ESCAPE | KEY_SPACE | KEY_OTHER.
Variant Action : Type := PRESS | RELEASE | REPEAT.

(** The four adjustments of the aim. *)
Variant Adjust : Type := AngleUp | AngleDown | PowerUp | PowerDown.

Section Program.
Context {ops : FloatOps} {libm : cmath.Libm ops}.
Local Open Scope fl_scope.

(** The global variables of the program. *)
Record Globals : Type := mkGlobals {
  cannonAngle : float;
  cannonPower : float;
  cannonPosition : glm.vec2;
  projectiles : list Projectile;
  lastFrameTime : float;
  fireCannon : bool;
  shouldClose : bool
}.

Definition initial : Globals :=
  mkGlobals (flit 45.0) (flit 50.0) (glm.Vec2 (flit 50.0) (flit 50.0))
            [] (flit 0.0) false false.

Definition set_cannonAngle (a : float) (g : Globals) : Globals :=
  mkGlobals a (cannonPower g) (cannonPosition g) (projectiles g)
            (lastFrameTime g) (fireCannon g) (shouldClose g).
Definition set_cannonPower (w : float) (g : Globals) : Globals :=
  mkGlobals (cannonAngle g) w (cannonPosition g) (projectiles g)
            (lastFrameTime g) (fireCannon g) (shouldClose g).
Definition set_projectiles (ps : list Projectile) (g : Globals) : Globals :=
  mkGlobals (cannonAngle g) (cannonPower g) (cannonPosition g) ps
            (lastFrameTime g) (fireCannon g) (shouldClose g).
Definition set_lastFrameTime (t : float) (g : Globals) : Globals :=
  mkGlobals (cannonAngle g) (cannonPower g) (cannonPosition g) (projectiles g)
            t (fireCannon g) (shouldClose g).
Definition set_fireCannon (b : bool) (g : Globals) : Globals :=
  mkGlobals (cannonAngle g) (cannonPower g) (cannonPosition g) (projectiles g)
            (lastFrameTime g) b (shouldClose g).
Definition set_shouldClose (b : bool) (g : Globals) : Globals :=
  mkGlobals (cannonAngle g) (cannonPower g) (cannonPosition g) (projectiles g)
            (lastFrameTime g) (fireCannon g) b.

(** The four guarded assignments of [processInput], in the order of the
    source. *)
Definition angle_up (g : Globals) : Globals :=
  set_cannonAngle (std.min (cannonAngle g + flit 1.0) (flit 90.0)) g.
Definition angle_down (g : Globals) : Globals :=
  set_cannonAngle (std.max (cannonAngle g - flit 1.0) (flit 0.0)) g.
Definition power_up (g : Globals) : Globals :=
  set_cannonPower (std.min (cannonPower g + flit 1.0) (flit 100.0)) g.
Definition power_down (g : Globals) : Globals :=
  set_cannonPower (std.max (cannonPower g - flit 1.0) (flit 10.0)) g.

Definition when (b : bool) (f : Globals -> Globals) (g : Globals) : Globals :=
  if b then f g else g.

Definition processInput (kb : Keyboard) (g : Globals) : Globals :=
  when (KEY_LEFT kb) power_down
    (when (KEY_RIGHT kb) power_up
      (when (KEY_DOWN kb) angle_down
        (when (KEY_UP kb) angle_up g))).

(** The assignments a keyboard state selects, in the order [processInput]
    runs them, and a run of several [processInput] calls. *)
Definition adjust (a : Adjust) : Globals -> Globals :=
  match a with
  | AngleUp => angle_up
  | AngleDown => angle_down
  | PowerUp => power_up
  | PowerDown => power_down
  end.

Definition adjusts (l : list Adjust) (g : Globals) : Globals :=
  fold_left (fun g a => adjust a g) l g.

Definition pressed (kb : Keyboard) : list Adjust :=
  (if KEY_UP kb then [AngleUp] else [])
  ++ (if KEY_DOWN kb then [AngleDown] else [])
  ++ (if KEY_RIGHT kb then [PowerUp] else [])
  ++ (if KEY_LEFT kb then [PowerDown] else []).

Definition processInputs (kbs : list Keyboard) (g : Globals) : Globals :=
  fold_left (fun g kb => processInput kb g) kbs g.

Definition key_callback (key : Key) (action : Action) (g : Globals) : Globals :=
  let g :=
    match key, action with
    | KEY_ESCAPE, PRESS => set_shouldClose true g
    | _, _ => g
    end in
  match key, action with
  | KEY_SPACE, PRESS => set_fireCannon true g
  | _, _ => g
  end.

(** The projectile [fireProjectile] constructs ... *)
Definition fired (g : Globals) : Projectile :=
  let radianAngle := cannonAngle g * PI / flit 180.0 in
  let initialVelocity :=
    glm.Vec2 (cannonPower g * cmath.cos radianAngle)
             (cannonPower g * cmath.sin radianAngle) in
  let barrelEnd :=
    glm.Vec2 (glm.x (cannonPosition g) + flit 40.0 * cmath.cos radianAngle)
             (glm.y (cannonPosition g) + flit 40.0 * cmath.sin radianAngle) in
  new_Projectile barrelEnd initialVelocity (flit 5.0).

(** ... and pushes at the back of [projectiles]. *)
Definition fireProjectile (g : Globals) : Globals :=
  set_projectiles (projectiles g ++ [fired g]) g.

(** One turn of the main loop, from the reading of the clock to the removal
    of the expired projectiles; drawing reads the globals and is left out,
    and the events polled at the end of the turn are [key_callback]s. *)
Definition frame (currentTime : float) (kb : Keyboard) (g : Globals) : Globals :=
  let deltaTime := currentTime - lastFrameTime g in
  let g := set_lastFrameTime currentTime g in
  let g := processInput kb g in
  let g := if fireCannon g then set_fireCannon false (fireProjectile g) else g in
  let g := set_projectiles (step deltaTime (projectiles g)) g in
  set_projectiles (prune (projectiles g)) g.
End Program.

(** ** The two arithmetics *)

(** *** Real numbers *)

Definition Rltb (a b : R) : bool := if Rlt_dec a b then true else false.
Definition Rleb (a b : R) : bool := if Rle_dec a b then true else false.

Definition ideal : FloatOps := {|
  float := R;
  fadd := Rplus;
  fsub := Rminus;
  fmul := Rmult;
  fdiv := Rdiv;
  fneg := Ropp;
  fsqrt := sqrt;
  flt := Rltb;
  fle := Rleb;
  flit := Q2R
|}.

Definition ideal_libm : cmath.Libm ideal :=
  @cmath.Build_Libm ideal Rtrigo_def.cos Rtrigo_def.sin.

(** *** IEEE-754 binary32 *)

Module b32.
Definition prec : Z := 24.
Definition emax : Z := 128.

Definition of_Z (n : Z) : spec_float :=
  match n with
  | Z0 => S754_zero false
  | Zpos m => S754_finite false m 0
  | Zneg m => S754_finite true m 0
  end.

(** The quotient of two integers, rounded once, to nearest even: the value
    of a decimal literal. *)
Definition of_Q (q : Q) : spec_float :=
  SFdiv prec emax (of_Z (Qnum q)) (of_Z (Zpos (Qden q))).

Definition is_nan (f : spec_float) : bool :=
  match f with S754_nan => true | _ => false end.

Definition is_finite (f : spec_float) : bool :=
  match f with S754_zero _ | S754_finite _ _ _ => true | _ => false end.

Definition is_zero (f : spec_float) : bool :=
  match f with S754_zero _ => true | _ => false end.

(** Equality of representations (not the IEEE comparison: it tells the two
    zeros apart and equates NaN with itself). *)
Definition eqb (a b : spec_float) : bool :=
  match a, b with
  | S754_zero s, S754_zero s' => Bool.eqb s s'
  | S754_infinity s, S754_infinity s' => Bool.eqb s s'
  | S754_nan, S754_nan => true
  | S754_finite s m e, S754_finite s' m' e' =>
      Bool.eqb s s' && Pos.eqb m m' && Z.eqb e e'
  | _, _ => false
  end.

Definition mem (a : spec_float) (l : list spec_float) : bool := existsb (eqb a) l.

(** The [n] consecutive integers from [lo], each converted to [float]. *)
Definition integers (lo : Z) (n : nat) : list spec_float :=
  map (fun i => of_Q (inject_Z (lo + Z.of_nat i))) (seq 0%nat n).
End b32.

Definition binary32 : FloatOps := {|
  float := spec_float;
  fadd := SFadd b32.prec b32.emax;
  fsub := SFsub b32.prec b32.emax;
  fmul := SFmul b32.prec b32.emax;
  fdiv := SFdiv b32.prec b32.emax;
  fneg := SFopp;
  fsqrt := SFsqrt b32.prec b32.emax;
  flt := SFltb;
  fle := SFleb;
  flit := b32.of_Q
|}.


(** The values the angle and the power take in binary32: the integers from
    0 to 90 and from 10 to 100. *)
Definition angles : list spec_float := b32.integers 0 91.
Definition powers : list spec_float := b32.integers 10 91.

(** ** Concrete inputs

    Written once with the literals of the interface, so that each is read in
    both arithmetics. *)

Section Inputs.
Context {ops : FloatOps}.

(** One sixty-fourth of a second, a frame time that is a binary fraction. *)
Definition dt64 : float := flit 0.015625.

(** Low and fast near the bottom right corner. *)
Definition corner_shot : Projectile :=
  mkProjectile (glm.Vec2 (flit 794.9) (flit 5.0)) (glm.Vec2 (flit 20.0) (flit (-3.0)))
               (flit 5.0) true (flit 1.0).

(** A projectile built with radius 0, as the constructor allows. *)
Definition point_shot : Projectile :=
  new_Projectile (glm.Vec2 (flit 100.0) (flit 100.0)) (glm.Vec2 (flit 0.0) (flit 0.0))
                 (flit 0.0).

(** Just bounced: on the ground ([position.y] is the radius), moving right
    at 10 and up at 3.5. *)
Definition bounced_shot : Projectile :=
  mkProjectile (glm.Vec2 (flit 100.0) (flit 5.0)) (glm.Vec2 (flit 10.0) (flit 3.5))
               (flit 5.0) true (flit 1.0).

(** On the ground and sinking at 0.5, below the settle threshold. *)
Definition slow_shot : Projectile :=
  mkProjectile (glm.Vec2 (flit 100.0) (flit 5.0)) (glm.Vec2 (flit 0.0) (flit (-0.5)))
               (flit 5.0) true (flit 1.0).
End Inputs.

(** A stand-in for [<cmath>] in binary32 that knows the two values at zero,
    [cos (0) = 1] and [sin (0) = 0], and answers them everywhere; it serves
    runs whose angle is 0. *)
Definition libm_at_zero : cmath.Libm binary32 :=
  @cmath.Build_Libm binary32 (fun _ => @flit binary32 1.0) (fun _ => @flit binary32 0.0).

(** The cannon laid flat: the initial globals with the angle brought to 0. *)
Definition flat_cannon {ops : FloatOps} : Globals :=
  set_cannonAngle (flit 0.0) initial.

(** ** The rest of [main.cpp]: drawing, the main loop, start-up

    The program talks to GLFW, GLEW, OpenGL and [std::cerr] through calls
    whose effect is outside the program; a run is observed as the list of
    those calls, in order, with their arguments. *)

Variant PrimitiveMode : Type := GL_TRIANGLE_FAN | GL_QUADS.
Variant MatrixMode : Type := GL_PROJECTION | GL_MODELVIEW.
Variant WindowHint : Type :=
  | GLFW_CONTEXT_VERSION_MAJOR | GLFW_CONTEXT_VERSION_MINOR | GLFW_OPENGL_PROFILE.
Variant HintValue : Type := HintInt (n : Z) | GLFW_OPENGL_COMPAT_PROFILE.

Section Calls.
Context {ops : FloatOps}.

(** The arguments of [glOrtho] are [double]s with integer values and are
    kept as rationals; [glViewport] takes [int]s. *)
Variant Call : Type :=
  | glfwInit
  | glfwWindowHint (hint : WindowHint) (value : HintValue)
  | glfwCreateWindow (width height : Z) (title : String.string)
  | glfwMakeContextCurrent
  | glfwSetFramebufferSizeCallback
  | glfwSetKeyCallback
  | glfwWindowShouldClose
  | glfwGetTime
  | glfwGetKey
  | glfwSwapBuffers
  | glfwPollEvents
  | glfwTerminate
  | glewInit
  | cerr (message : String.string)
  | glViewport (x y width height : Z)
  | glMatrixMode (mode : MatrixMode)
  | glLoadIdentity
  | glOrtho (left right bottom top near far : Q)
  | glEnable_GL_BLEND
  | glBlendFunc_SRC_ALPHA_ONE_MINUS_SRC_ALPHA
  | glClearColor (r g b a : float)
  | glClear_GL_COLOR_BUFFER_BIT
  | glColor3f (r g b : float)
  | glBegin (mode : PrimitiveMode)
  | glEnd
  | glVertex2f (x y : float)
  | glPushMatrix
  | glPopMatrix
  | glTranslatef (x y z : float)
  | glRotatef (angle x y z : float).
End Calls.
Arguments Call : clear implicits.
Arguments Call {ops}.

Section Drawing.
Context {ops : FloatOps} {libm : cmath.Libm ops}.
Local Open Scope fl_scope.

(** The values of [i] in [for (int i = 0; i <= 360; i += 10)]: 0, 10, ...,
    360, thirty-seven of them. *)
Definition fan_steps : list Z := map (fun k => (10 * Z.of_nat k)%Z) (seq 0%nat 37).

(** The vertices one such loop emits around [(cx, cy)] at distance [r]. *)
Definition rim (cx cy r : float) : list Call :=
  map (fun i =>
         let radian := of_int i * PI / flit 180.0 in
         glVertex2f (cx + r * cmath.cos radian) (cy + r * cmath.sin radian))
      fan_steps.

Definition drawCannon (g : Globals) : list Call :=
  let cx := glm.x (cannonPosition g) in
  let cy := glm.y (cannonPosition g) in
  [glColor3f (flit 0.5) (flit 0.5) (flit 0.5); glBegin GL_TRIANGLE_FAN; glVertex2f cx cy]
  ++ rim cx cy (flit 20.0)
  ++ [glEnd;
      glColor3f (flit 0.3) (flit 0.3) (flit 0.3);
      glPushMatrix;
      glTranslatef cx cy (flit 0.0);
      glRotatef (cannonAngle g) (flit 0.0) (flit 0.0) (flit 1.0);
      glBegin GL_QUADS;
      glVertex2f (flit 0.0) (- flit 5.0);
      glVertex2f (flit 40.0) (- flit 5.0);
      glVertex2f (flit 40.0) (flit 5.0);
      glVertex2f (flit 0.0) (flit 5.0);
      glEnd;
      glPopMatrix].

(** The body of the loop of [drawProjectiles] for one element. *)
Definition drawProjectile (p : Projectile) : list Call :=
  if active p then
    [glColor3f (flit 0.9) (flit 0.1) (flit 0.1); glBegin GL_TRIANGLE_FAN;
     glVertex2f (glm.x (position p)) (glm.y (position p))]
    ++ rim (glm.x (position p)) (glm.y (position p)) (radius p)
    ++ [glEnd]
  else [].

Definition drawProjectiles (g : Globals) : list Call :=
  flat_map drawProjectile (projectiles g).

Definition drawGround : list Call :=
  [glColor3f (flit 0.0) (flit 0.7) (flit 0.0);
   glBegin GL_QUADS;
   glVertex2f (flit 0.0) (flit 0.0);
   glVertex2f (of_int WINDOW_WIDTH) (flit 0.0);
   glVertex2f (of_int WINDOW_WIDTH) (flit 50.0);
   glVertex2f (flit 0.0) (flit 50.0);
   glEnd].

(** "Clear screen" to "Draw projectiles" in the main loop. *)
Definition render (g : Globals) : list Call :=
  [glClearColor (flit 0.2) (flit 0.3) (flit 0.3) (flit 1.0); glClear_GL_COLOR_BUFFER_BIT]
  ++ drawGround ++ drawCannon g ++ drawProjectiles g.

(** [framebuffer_size_callback] *)
Definition framebuffer_size_callback (width height : Z) : list Call :=
  [glViewport 0 0 width height; glMatrixMode GL_PROJECTION; glLoadIdentity;
   glOrtho 0 (inject_Z width) 0 (inject_Z height) (-1) 1].
End Drawing.

(** What one turn of the main loop receives from outside: the clock, the
    state of the arrow keys, and the key events [glfwPollEvents] delivers to
    [key_callback] at the end of the turn. *)
Section MainLoop.
Context {ops : FloatOps} {libm : cmath.Libm ops}.

Record Turn : Type := mkTurn {
  clock : float;
  keyboard : Keyboard;
  polled : list (Key * Action)
}.

Definition pollEvents (events : list (Key * Action)) (g : Globals) : Globals :=
  fold_left (fun g e => key_callback (fst e) (snd e) g) events g.

(** One turn: the globals after it and the calls it makes. *)
Definition turn (i : Turn) (g : Globals) : Globals * list Call :=
  let g1 := frame (clock i) (keyboard i) g in
  (pollEvents (polled i) g1,
   [glfwGetTime; glfwGetKey; glfwGetKey; glfwGetKey; glfwGetKey]
   ++ render g1 ++ [glfwSwapBuffers; glfwPollEvents]).

(** [while (!glfwWindowShouldClose (window))] over the turns the outside
    provides.  The test answers true when [key_callback] has set the flag,
    and also when the window system asks to close the window: that is the
    end of the list of turns. *)
Fixpoint main_loop (turns : list Turn) (g : Globals) : Globals * list Call :=
  match turns with
  | [] => (g, [glfwWindowShouldClose])
  | i :: rest =>
      if shouldClose g then (g, [glfwWindowShouldClose])
      else
        let (g1, calls1) := turn i g in
        let (g2, calls2) := main_loop rest g1 in
        (g2, [glfwWindowShouldClose] ++ calls1 ++ calls2)
  end.

(** What the three fallible start-up calls answer. *)
Record Platform : Type := mkPlatform {
  glfwInit_ok : bool;
  glfwCreateWindow_ok : bool;
  glewInit_ok : bool
}.

Definition windowHints : list Call :=
  [glfwWindowHint GLFW_CONTEXT_VERSION_MAJOR (HintInt 3);
   glfwWindowHint GLFW_CONTEXT_VERSION_MINOR (HintInt 3);
   glfwWindowHint GLFW_OPENGL_PROFILE GLFW_OPENGL_COMPAT_PROFILE].

Definition setup : list Call :=
  [glViewport 0 0 WINDOW_WIDTH WINDOW_HEIGHT;
   glMatrixMode GL_PROJECTION; glLoadIdentity;
   glOrtho 0 (inject_Z WINDOW_WIDTH) 0 (inject_Z WINDOW_HEIGHT) (-1) 1;
   glMatrixMode GL_MODELVIEW; glLoadIdentity;
   glEnable_GL_BLEND; glBlendFunc_SRC_ALPHA_ONE_MINUS_SRC_ALPHA].

(** [main]: the exit status, the globals at exit and the calls made. *)
Definition main (platform : Platform) (turns : list Turn) : Z * Globals * list Call :=
  if negb (glfwInit_ok platform) then
    (-1, initial, [glfwInit; cerr "Failed to initialize GLFW"%string])%Z
  else if negb (glfwCreateWindow_ok platform) then
    (-1, initial,
     [glfwInit] ++ windowHints
     ++ [glfwCreateWindow WINDOW_WIDTH WINDOW_HEIGHT "Cannon Simulator"%string;
         cerr "Failed to create GLFW window"%string; glfwTerminate])%Z
  else if negb (glewInit_ok platform) then
    (-1, initial,
     [glfwInit] ++ windowHints
     ++ [glfwCreateWindow WINDOW_WIDTH WINDOW_HEIGHT "Cannon Simulator"%string;
         glfwMakeContextCurrent; glfwSetFramebufferSizeCallback; glfwSetKeyCallback;
         glewInit; cerr "Failed to initialize GLEW"%string])%Z
  else
    let (g, calls) := main_loop turns initial in
    (0, g,
     [glfwInit] ++ windowHints
     ++ [glfwCreateWindow WINDOW_WIDTH WINDOW_HEIGHT "Cannon Simulator"%string;
         glfwMakeContextCurrent; glfwSetFramebufferSizeCallback; glfwSetKeyCallback;
         glewInit]
     ++ setup ++ calls ++ [glfwTerminate])%Z.
End MainLoop.

(** ** Two readings used in the statements *)


(** The four adjustments read over the integers: the angle in degrees and
    the power as whole numbers, clamped by [Z.min] and [Z.max]. *)
Definition adjustZ (a : Adjust) (aim : Z * Z) : Z * Z :=
  let (angle, power) := aim in
  match a with
  | AngleUp => (Z.min (angle + 1) 90, power)
  | AngleDown => (Z.max (angle - 1) 0, power)
  | PowerUp => (angle, Z.min (power + 1) 100)
  | PowerDown => (angle, Z.max (power - 1) 10)
  end%Z.

Definition adjustsZ (l : list Adjust) (aim : Z * Z) : Z * Z :=
  fold_left (fun s a => adjustZ a s) l aim.

(** ** Predicates used in the statements *)

Section Predicates.
Context {ops : FloatOps}.
Local Open Scope fl_scope.

(** A projectile [prune] keeps. *)
Definition live (p : Projectile) : Prop :=
  active p = true /\ (timeAlive p >? flit 10.0) = false.

(** The rules of immediate-mode OpenGL the drawing code depends on, as an
    automaton over (inside a [glBegin]/[glEnd] pair, depth of the matrix
    stack): vertices only inside a pair, pairs not nested, every other GL
    call outside a pair, no pop of an empty stack. *)
Definition gl_step (c : Call) (s : bool * nat) : option (bool * nat) :=
  let (inside, depth) := s in
  match c with
  | glBegin _ => if inside then None else Some (true, depth)
  | glEnd => if inside then Some (false, depth) else None
  | glVertex2f _ _ => if inside then Some s else None
  | glColor3f _ _ _ => Some s
  | glPushMatrix => if inside then None else Some (false, S depth)
  | glPopMatrix =>
      if inside then None
      else match depth with O => None | S d => Some (false, d) end
  | glTranslatef _ _ _ | glRotatef _ _ _ _ | glClearColor _ _ _ _
  | glClear_GL_COLOR_BUFFER_BIT | glViewport _ _ _ _ | glMatrixMode _
  | glLoadIdentity | glOrtho _ _ _ _ _ _ | glEnable_GL_BLEND
  | glBlendFunc_SRC_ALPHA_ONE_MINUS_SRC_ALPHA =>
      if inside then None else Some s
  | _ => Some s
  end.

Fixpoint gl_exec (calls : list Call) (s : bool * nat) : option (bool * nat) :=
  match calls with
  | [] => Some s
  | c :: rest =>
      match gl_step c s with
      | Some s' => gl_exec rest s'
      | None => None
      end
  end.

(** The calls that need a current OpenGL context. *)
Definition is_gl (c : Call) : bool :=
  match c with
  | glViewport _ _ _ _ | glMatrixMode _ | glLoadIdentity | glOrtho _ _ _ _ _ _
  | glEnable_GL_BLEND | glBlendFunc_SRC_ALPHA_ONE_MINUS_SRC_ALPHA
  | glClearColor _ _ _ _ | glClear_GL_COLOR_BUFFER_BIT | glColor3f _ _ _
  | glBegin _ | glEnd | glVertex2f _ _ | glPushMatrix | glPopMatrix
  | glTranslatef _ _ _ | glRotatef _ _ _ _ => true
  | _ => false
  end.

Definition is_vertex (c : Call) : bool :=
  match c with glVertex2f _ _ => true | _ => false end.

Definition is_terminate (c : Call) : bool :=
  match c with glfwTerminate => true | _ => false end.

Definition is_cerr (c : Call) : bool :=
  match c with cerr _ => true | _ => false end.

(** Neither [glfwTerminate] nor a message on [std::cerr]. *)
Definition turn_call (c : Call) : bool :=
  negb (is_terminate c) && negb (is_cerr c).

Definition is_space_press (e : Key * Action) : bool :=
  match e with (KEY_SPACE, PRESS) => true | _ => false end.

Definition is_escape_press (e : Key * Action) : bool :=
  match e with (KEY_ESCAPE, PRESS) => true | _ => false end.
End Predicates.

(** What holds of the globals all along a run, over the reals ... *)
Definition ideal_invariant (g : @Globals ideal) : Prop :=
  (0 <= cannonAngle g <= 90)%R
  /\ (10 <= cannonPower g <= 100)%R
  /\ cannonPosition g = @glm.Vec2 ideal 50%R 50%R
  /\ Forall (fun p : @Projectile ideal =>
               active p = true
               /\ radius p = 5%R
               /\ (timeAlive p <= 10)%R
               /\ (glm.y (position p) >= 5)%R
               /\ (glm.x (position p) <= 795)%R)
            (projectiles g).

(** ... and in binary32, where the tests are the program's own. *)
Definition binary32_invariant (g : @Globals binary32) : Prop :=
  b32.mem (cannonAngle g) angles = true
  /\ b32.mem (cannonPower g) powers = true
  /\ cannonPosition g = @glm.Vec2 binary32 (flit 50.0) (flit 50.0)
  /\ Forall (fun p : @Projectile binary32 =>
               active p = true
               /\ radius p = flit 5.0
               /\ (timeAlive p >? flit 10.0)%fl = false
               /\ (glm.y (position p) <? flit 5.0)%fl = false
               /\ (glm.x (position p) >? flit 795.0)%fl = false)
            (projectiles g).

(** * Properties of the control flow, in every arithmetic *)

Section ControlFlow.
Context {ops : FloatOps}.
Local Open Scope fl_scope.

Lemma update_unfold (deltaTime : float) (p : Projectile) :
  update deltaTime p = wall_collision (ground_collision (integrated deltaTime p)).
Proof. reflexivity. Qed.

(** The three outcomes of the ground block. *)
Lemma ground_collision_miss (q : Projectile) :
  (glm.y (position q) <=? radius q) = false -> ground_collision q = q.
Proof.
  intros Hc. unfold ground_collision, ifelse, skip. now rewrite Hc.
Qed.

Lemma ground_collision_settle (q : Projectile) :
  (glm.y (position q) <=? radius q) = true ->
  (glm.length (glm.scale (velocity q) (flit 0.5)) <? flit 1.0) = true ->
  ground_collision q =
    mkProjectile (glm.Vec2 (glm.x (position q)) (radius q))
                 (glm.scale (velocity q) (flit 0.5))
                 (radius q) false (timeAlive q).
Proof.
  intros Hc Hs. unfold ground_collision, ifelse, semi. rewrite Hc. cbn.
  now rewrite Hs.
Qed.

Lemma ground_collision_bounce (q : Projectile) :
  (glm.y (position q) <=? radius q) = true ->
  (glm.length (glm.scale (velocity q) (flit 0.5)) <? flit 1.0) = false ->
  ground_collision q =
    mkProjectile (glm.Vec2 (glm.x (position q)) (radius q))
                 (glm.Vec2 (glm.x (velocity q) * flit 0.5)
                           (- (glm.y (velocity q) * flit 0.5) * flit 0.7))
                 (radius q) (active q) (timeAlive q).
Proof.
  intros Hc Hs. unfold ground_collision, ifelse, semi. rewrite Hc. cbn.
  now rewrite Hs.
Qed.

(** The two outcomes of the wall block. *)
Lemma wall_collision_miss (q : Projectile) :
  (glm.x (position q) >=? of_int WINDOW_WIDTH - radius q) = false ->
  wall_collision q = q.
Proof.
  intros Hc. unfold wall_collision, ifelse, skip. now rewrite Hc.
Qed.

Lemma wall_collision_hit (q : Projectile) :
  (glm.x (position q) >=? of_int WINDOW_WIDTH - radius q) = true ->
  wall_collision q =
    mkProjectile (glm.Vec2 (of_int WINDOW_WIDTH - radius q) (glm.y (position q)))
                 (glm.Vec2 (glm.x (velocity q) * - flit 0.7) (glm.y (velocity q)))
                 (radius q) (active q) (timeAlive q).
Proof.
  intros Hc. unfold wall_collision, ifelse, semi. now rewrite Hc.
Qed.
End ControlFlow.

Section Loop.
Context {ops : FloatOps}.

Lemma step_nth (deltaTime : float) (ps : list Projectile) (i : nat) (p : Projectile) :
  nth_error ps i = Some p ->
  nth_error (step deltaTime ps) i = Some (if active p then update deltaTime p else p).
Proof.
  intros Hi. unfold step. now rewrite nth_error_map, Hi.
Qed.

Lemma step_length (deltaTime : float) (ps : list Projectile) :
  length (step deltaTime ps) = length ps.
Proof. apply length_map. Qed.

Lemma prune_In (ps : list Projectile) (p : Projectile) :
  In p (prune ps) <-> In p ps /\ expired p = false.
Proof.
  unfold prune, std.erase_remove_if. rewrite filter_In, negb_true_iff. tauto.
Qed.

Lemma wall_collision_active (q : Projectile) :
  active (wall_collision q) = active q.
Proof.
  unfold wall_collision, ifelse, semi, skip.
  now destruct (fle _ _).
Qed.

Lemma ground_collision_active (q : Projectile) :
  active (ground_collision q) =
  active q && negb (fle (glm.y (position q)) (radius q)
                    && flt (glm.length (glm.scale (velocity q) (flit 0.5))) (flit 1.0)).
Proof.
  destruct (fle (glm.y (position q)) (radius q)) eqn:Hc.
  - destruct (flt (glm.length (glm.scale (velocity q) (flit 0.5))) (flit 1.0)) eqn:Hs.
    + rewrite (ground_collision_settle _ Hc Hs). cbn. now rewrite andb_false_r.
    + rewrite (ground_collision_bounce _ Hc Hs). cbn. now rewrite andb_true_r.
  - rewrite (ground_collision_miss _ Hc). cbn. now rewrite andb_true_r.
Qed.
End Loop.

(** * The claims *)

(** C1. For every projectile and every [deltaTime], [update] first subtracts
    [GRAVITY * deltaTime] from [velocity.y] ([GRAVITY] is the literal 9.81),
    then adds the new velocity times [deltaTime] to the position, then adds
    [deltaTime] to [timeAlive], and only then runs the ground block and the
    wall block on the object so obtained; the loop of [main] does this to
    the active elements and leaves the others as they are.  Holds in every
    arithmetic. *)
Theorem update_integrates_before_collisions :
  forall (ops : FloatOps) (deltaTime : float) (p : Projectile),
    let vy' := (glm.y (velocity p) - flit 9.81 * deltaTime)%fl in
    let q :=
      mkProjectile
        (glm.Vec2 (glm.x (position p) + glm.x (velocity p) * deltaTime)%fl
                  (glm.y (position p) + vy' * deltaTime)%fl)
        (glm.Vec2 (glm.x (velocity p)) vy')
        (radius p) (active p) (timeAlive p + deltaTime)%fl in
    update deltaTime p = wall_collision (ground_collision q)
    /\ (forall (ps : list Projectile) (i : nat),
          nth_error ps i = Some p ->
          nth_error (step deltaTime ps) i =
            Some (if active p then wall_collision (ground_collision q) else p)).
Proof.
  intros ops deltaTime p vy' q.
  assert (Hu : update deltaTime p = wall_collision (ground_collision q))
    by apply update_unfold.
  split; [exact Hu|].
  intros ps i Hi. rewrite <- Hu. now apply step_nth.
Qed.

(** Comparisons and literals of the real-number arithmetic. *)
Section IdealArithmetic.
Local Open Scope R_scope.

Lemma Rltb_true (a b : R) : Rltb a b = true <-> a < b.
Proof. unfold Rltb. destruct (Rlt_dec a b); split; intros; auto; discriminate. Qed.

Lemma Rltb_false (a b : R) : Rltb a b = false <-> b <= a.
Proof.
  unfold Rltb. destruct (Rlt_dec a b); split; intros; auto; try discriminate; lra.
Qed.

Lemma Rleb_true (a b : R) : Rleb a b = true <-> a <= b.
Proof. unfold Rleb. destruct (Rle_dec a b); split; intros; auto; discriminate. Qed.

Lemma Rleb_false (a b : R) : Rleb a b = false <-> b < a.
Proof.
  unfold Rleb. destruct (Rle_dec a b); split; intros; auto; try discriminate; lra.
Qed.

Lemma sqrt_ge_1 (a : R) : 1 <= a -> 1 <= sqrt a.
Proof.
  intros Ha. apply Rle_trans with (sqrt 1).
  - rewrite sqrt_1. lra.
  - now apply sqrt_le_1_alt.
Qed.

Lemma sqrt_lt_1 (a : R) : a < 1 -> sqrt a < 1.
Proof.
  intros Ha. destruct (Rle_lt_dec 0 a) as [H0|H0].
  - apply Rlt_le_trans with (sqrt 1).
    + apply sqrt_lt_1_alt. lra.
    + rewrite sqrt_1. lra.
  - rewrite sqrt_neg_0; lra.
Qed.
End IdealArithmetic.

(** Turns the tests and literals of [ideal] into (in)equalities over [R]. *)
Ltac ideal_tests :=
  cbn in *; unfold of_int, WINDOW_WIDTH, Q2R in *; cbn in *;
  rewrite ?Rltb_true, ?Rltb_false, ?Rleb_true, ?Rleb_false in *.

(** C2. The ground block.  In every arithmetic: when the position after
    integration has [y <= radius], [position.y] becomes [radius] and both
    components of the velocity are multiplied by 0.5; then, if the length of
    that halved velocity is below 1.0 the projectile becomes inactive, and
    otherwise [velocity.y] becomes [-velocity.y * 0.7].  Over the reals the
    bounce leaves [velocity.x] at 0.5 times and [velocity.y] at -0.35 times
    their values before the block. *)
Theorem ground_collision_effect :
  (forall (ops : FloatOps) (deltaTime : float) (p : Projectile),
     let q := integrated deltaTime p in
     let v := glm.Vec2 (glm.x (velocity q) * flit 0.5)%fl (glm.y (velocity q) * flit 0.5)%fl in
     (glm.y (position q) <=? radius q)%fl = true ->
     ground_collision q =
       (if (fsqrt (glm.x v * glm.x v + glm.y v * glm.y v) <? flit 1.0)%fl
        then mkProjectile (glm.Vec2 (glm.x (position q)) (radius q)) v
                          (radius q) false (timeAlive q)
        else mkProjectile (glm.Vec2 (glm.x (position q)) (radius q))
                          (glm.Vec2 (glm.x v) (- glm.y v * flit 0.7)%fl)
                          (radius q) (active q) (timeAlive q))
     /\ update deltaTime p = wall_collision (ground_collision q))
  /\ (forall (deltaTime : @float ideal) (p : Projectile),
        let q := integrated deltaTime p in
        (glm.y (position q) <= radius q)%R ->
        (1 <= glm.length (glm.scale (velocity q) (flit 0.5)))%R ->
        glm.x (velocity (ground_collision q)) = (0.5 * glm.x (velocity q))%R
        /\ glm.y (velocity (ground_collision q)) = (-0.35 * glm.y (velocity q))%R
        /\ active (ground_collision q) = active p).
Proof.
  split.
  - intros ops deltaTime p q v Hc. split; [|apply update_unfold].
    change (fsqrt (glm.x v * glm.x v + glm.y v * glm.y v))%fl
      with (glm.length (glm.scale (velocity q) (flit 0.5))).
    destruct (flt (glm.length (glm.scale (velocity q) (flit 0.5))) (flit 1.0)) eqn:Hs.
    + now rewrite (ground_collision_settle _ Hc Hs).
    + now rewrite (ground_collision_bounce _ Hc Hs).
  - intros deltaTime p q Hc Hs.
    apply (proj2 (Rleb_true _ _)) in Hc.
    assert (Hs' : Rltb (glm.length (glm.scale (velocity q) (@flit ideal 0.5))) (@flit ideal 1.0) = false).
    { apply Rltb_false. ideal_tests. lra. }
    rewrite (@ground_collision_bounce ideal q Hc Hs').
    ideal_tests. repeat split; lra.
Qed.

(** The ground block on a run in binary32: the corner shot, 794.9 from the
    left and on the ground, falling at 3 and moving right at 20, bounces. *)
Lemma ground_collision_effect_witness :
  let g := @ground_collision binary32 (integrated dt64 corner_shot) in
  glm.y (position g) = flit 5.0
  /\ glm.x (velocity g) = flit 10.0
  /\ glm.y (velocity g) = S754_finite false 9258074 (-23)
  /\ active g = true.
Proof.
  cbv zeta.
  rewrite (proj1 (proj1 ground_collision_effect binary32 dt64 corner_shot eq_refl)).
  repeat split; reflexivity.
Defined.

Section WallBlock.
Context {ops : FloatOps}.

Lemma ground_collision_keeps_x (q : Projectile) :
  glm.x (position (ground_collision q)) = glm.x (position q)
  /\ radius (ground_collision q) = radius q.
Proof.
  unfold ground_collision, ifelse, semi, skip.
  destruct (fle _ _); [|now split]. cbn.
  destruct (flt _ _); now split.
Qed.

Lemma ground_collision_hit_y (q : Projectile) :
  (glm.y (position q) <=? radius q)%fl = true ->
  glm.y (position (ground_collision q)) = radius q.
Proof.
  intros Hc. unfold ground_collision, ifelse, semi, skip. rewrite Hc. cbn.
  now destruct (flt _ _).
Qed.

Lemma wall_collision_keeps_y (q : Projectile) :
  glm.y (position (wall_collision q)) = glm.y (position q)
  /\ radius (wall_collision q) = radius q.
Proof.
  unfold wall_collision, ifelse, semi, skip.
  destruct (fle _ _); now split.
Qed.
End WallBlock.

(** C3. The wall block.  In every arithmetic: when, after integration and
    the ground block, [position.x >= 800 - radius], [update] leaves
    [position.x] at exactly [800 - radius] and [velocity.x] multiplied by
    [-0.7], and nothing else is changed by the block.  The ground block
    writes neither [position.x] nor [radius], so the wall test does not
    depend on it; and both blocks run in one call on the corner shot, in
    binary32 and over the reals. *)
Theorem wall_collision_effect :
  (forall (ops : FloatOps) (deltaTime : float) (p : Projectile),
     let q := ground_collision (integrated deltaTime p) in
     (glm.x (position q) >=? flit 800 - radius q)%fl = true ->
     update deltaTime p =
       mkProjectile (glm.Vec2 (flit 800 - radius q)%fl (glm.y (position q)))
                    (glm.Vec2 (glm.x (velocity q) * - flit 0.7)%fl (glm.y (velocity q)))
                    (radius q) (active q) (timeAlive q))
  /\ (forall (ops : FloatOps) (q : Projectile),
        (glm.x (position (ground_collision q)) >=? flit 800 - radius (ground_collision q))%fl
        = (glm.x (position q) >=? flit 800 - radius q)%fl)
  /\ (let q := @integrated binary32 dt64 corner_shot in
      (glm.y (position q) <=? radius q)%fl = true
      /\ (glm.x (position (ground_collision q)) >=? flit 800 - radius q)%fl = true
      /\ position (@update binary32 dt64 corner_shot) = glm.Vec2 (flit 795.0) (flit 5.0)
      /\ glm.x (velocity (@update binary32 dt64 corner_shot)) = flit (-7.0))
  /\ (let q := @integrated ideal dt64 corner_shot in
      (glm.y (position q) <= radius q)%R
      /\ (glm.x (position (ground_collision q)) >= 800 - radius q)%R
      /\ position (@update ideal dt64 corner_shot) = @glm.Vec2 ideal 795%R 5%R).
Proof.
  split; [|split; [|split]].
  - intros ops deltaTime p q Hw. rewrite update_unfold. fold q.
    now rewrite (wall_collision_hit q Hw).
  - intros ops q. now destruct (ground_collision_keeps_x q) as [-> ->].
  - repeat split; reflexivity.
  - cbv zeta. set (q := @integrated ideal dt64 corner_shot).
    assert (Hg : (glm.y (position q) <= radius q)%R)
      by (subst q; ideal_tests; lra).
    destruct (ground_collision_keeps_x q) as [Hx Hr].
    assert (Hw : (glm.x (position (ground_collision q)) >= 800 - radius q)%R)
      by (rewrite Hx; subst q; ideal_tests; lra).
    split; [exact Hg|]. split; [exact Hw|].
    rewrite update_unfold. fold q. rewrite wall_collision_hit.
    + cbn [position]. rewrite Hr, ground_collision_hit_y by now apply Rleb_true.
      subst q. f_equal; ideal_tests; lra.
    + apply Rleb_true. rewrite Hr. apply Rge_le in Hw.
      subst q. ideal_tests. lra.
Qed.

(** The wall block on the run of the corner shot in binary32. *)
Lemma wall_collision_effect_witness :
  position (@update binary32 dt64 corner_shot) = glm.Vec2 (flit 795.0) (flit 5.0)
  /\ glm.x (velocity (@update binary32 dt64 corner_shot)) = flit (-7.0).
Proof.
  rewrite (proj1 wall_collision_effect binary32 dt64 corner_shot eq_refl).
  split; reflexivity.
Defined.

(** The order of binary32: [<] and [<=] are read off [SFcompare], which
    answers nothing when an operand is NaN. *)
Section Binary32Order.
Lemma SFcompare_antisym (a b : spec_float) :
  SFcompare b a = option_map CompOpp (SFcompare a b).
Proof.
  destruct a as [sa|sa| |sa ma ea], b as [sb|sb| |sb mb eb]; cbn;
    try destruct sa; try destruct sb; try reflexivity;
    rewrite (Z.compare_antisym ea eb); destruct (Z.compare ea eb); cbn;
    try reflexivity;
    rewrite (Pos.compare_cont_antisym ma mb Eq); reflexivity.
Qed.

Lemma SFleb_not_gt (a b : spec_float) : SFleb a b = true -> SFltb b a = false.
Proof.
  unfold SFleb, SFltb. rewrite (SFcompare_antisym a b).
  now destruct (SFcompare a b) as [[]|].
Qed.

Lemma SFcompare_ordered (a b : spec_float) :
  b32.is_nan a = false -> b32.is_nan b = false ->
  exists c, SFcompare a b = Some c.
Proof.
  destruct a, b; cbn; intros Ha Hb; try discriminate; eauto.
Qed.

Lemma SFleb_false_gt (a b : spec_float) :
  b32.is_nan a = false -> b32.is_nan b = false ->
  SFleb a b = false -> SFltb b a = true.
Proof.
  intros Ha Hb. destruct (SFcompare_ordered a b Ha Hb) as [c Hc].
  unfold SFleb, SFltb. rewrite (SFcompare_antisym a b), Hc.
  now destruct c.
Qed.

Lemma SFleb_refl (a : spec_float) : b32.is_nan a = false -> SFleb a a = true.
Proof.
  intros Ha. unfold SFleb.
  destruct a as [s|s| |s m e]; cbn; try discriminate; try (now destruct s).
  destruct s; rewrite Z.compare_refl, Pos.compare_cont_refl; reflexivity.
Qed.
End Binary32Order.

(** C4. [prune] keeps, in their order, the projectiles that are active and
    whose [timeAlive] is not above 10.0, and removes the others: the ones
    with [active == false] or [timeAlive > 10.0].  A projectile whose
    [timeAlive] is 10.01 is removed whatever its flag, and an active one
    with [timeAlive <= 10.0] is kept; both are shown over the reals and in
    binary32. *)
Theorem prune_removes_exactly_expired :
  (forall (ops : FloatOps) (ps : list Projectile),
     prune ps = filter (fun p => active p && negb (timeAlive p >? flit 10.0)%fl) ps)
  /\ (forall (ops : FloatOps) (ps : list Projectile) (p : Projectile),
        In p ps ->
        (~ In p (prune ps) <-> active p = false \/ (timeAlive p >? flit 10.0)%fl = true))
  /\ (forall (ps : list (@Projectile ideal)) (p : @Projectile ideal),
        (timeAlive p = 10.01%R -> ~ In p (prune ps))
        /\ (In p ps -> active p = true -> (timeAlive p <= 10.0)%R -> In p (prune ps)))
  /\ (forall (ps : list (@Projectile binary32)) (p : @Projectile binary32),
        (timeAlive p = flit 10.01 -> ~ In p (prune ps))
        /\ (In p ps -> active p = true -> (timeAlive p <=? flit 10.0)%fl = true ->
            In p (prune ps))).
Proof.
  split; [|split; [|split]].
  - intros ops ps. unfold prune, std.erase_remove_if, expired.
    apply filter_ext. intros p. now rewrite negb_orb, negb_involutive.
  - intros ops ps p Hin. rewrite prune_In. unfold expired.
    destruct (active p), (flt (flit 10.0) (timeAlive p)); cbn; intuition congruence.
  - intros ps p. rewrite prune_In. unfold expired. split.
    + intros Ht [_ He]. rewrite Ht in He. apply orb_false_elim in He as [_ He].
      ideal_tests. lra.
    + intros Hin Ha Ht. split; [exact Hin|]. rewrite Ha. cbn [negb orb].
      ideal_tests. lra.
  - intros ps p. rewrite prune_In. unfold expired. split.
    + intros Ht [_ He]. rewrite Ht in He. apply orb_false_elim in He as [_ He].
      vm_compute in He. discriminate.
    + intros Hin Ha Ht. split; [exact Hin|]. rewrite Ha. cbn [negb orb].
      now apply SFleb_not_gt.
Qed.

(** An expired and a live projectile on a run of [prune] in binary32. *)
Lemma prune_removes_exactly_expired_witness :
  let old := @mkProjectile binary32 (glm.Vec2 (flit 100.0) (flit 100.0))
               (glm.Vec2 (flit 1.0) (flit 1.0)) (flit 5.0) true (flit 10.01) in
  let young := @mkProjectile binary32 (glm.Vec2 (flit 100.0) (flit 100.0))
               (glm.Vec2 (flit 1.0) (flit 1.0)) (flit 5.0) true (flit 10.0) in
  ~ In old (prune [old; young]) /\ In young (prune [old; young]).
Proof.
  cbv zeta. split.
  - apply (proj1 (proj2 (proj2 (proj2 prune_removes_exactly_expired)) _ _)).
    reflexivity.
  - apply (proj2 (proj2 (proj2 (proj2 prune_removes_exactly_expired)) _ _)).
    + right. left. reflexivity.
    + reflexivity.
    + reflexivity.
Defined.

Section Insertion.
Context {ops : FloatOps} {libm : cmath.Libm ops}.

Lemma processInput_projectiles (kb : Keyboard) (g : Globals) :
  projectiles (processInput kb g) = projectiles g.
Proof.
  unfold processInput, when.
  destruct (KEY_LEFT kb), (KEY_RIGHT kb), (KEY_DOWN kb), (KEY_UP kb); reflexivity.
Qed.

Lemma key_callback_projectiles (key : Key) (action : Action) (g : Globals) :
  projectiles (key_callback key action g) = projectiles g.
Proof. destruct key, action; reflexivity. Qed.
End Insertion.

(** C10. The flag [active] only ever goes from true to false, and only in
    the ground block.  In every arithmetic: after [update] the flag is the
    flag before, and-ed with the negation of "the position after
    integration has [y <= radius] and the halved velocity is shorter than
    1.0"; the wall block never writes it; the loop of [main] leaves an
    inactive element as it is; [prune] only drops elements; and
    [fireProjectile], [processInput] and [key_callback] leave the elements
    already in the collection as they are (the new one is active). *)
Theorem active_cleared_only_by_ground_settle :
  forall (ops : FloatOps),
    (forall (deltaTime : float) (p : Projectile),
       let q := integrated deltaTime p in
       active (update deltaTime p) =
         active p && negb ((glm.y (position q) <=? radius q)%fl
                           && (glm.length (glm.scale (velocity q) (flit 0.5)) <? flit 1.0)%fl))
    /\ (forall q : Projectile, active (wall_collision q) = active q)
    /\ (forall (deltaTime : float) (ps : list Projectile) (i : nat) (p : Projectile),
          nth_error ps i = Some p -> active p = false ->
          nth_error (step deltaTime ps) i = Some p)
    /\ (forall (deltaTime : float) (ps : list Projectile),
          length (step deltaTime ps) = length ps)
    /\ (forall (ps : list Projectile) (p : Projectile),
          In p (prune ps) -> In p ps /\ active p = true)
    /\ (forall (libm : cmath.Libm ops) (g : Globals) (kb : Keyboard)
               (key : Key) (action : Action),
          projectiles (fireProjectile g) = projectiles g ++ [fired g]
          /\ active (fired g) = true
          /\ projectiles (processInput kb g) = projectiles g
          /\ projectiles (key_callback key action g) = projectiles g).
Proof.
  intros ops. repeat split.
  - intros deltaTime p q. rewrite update_unfold, wall_collision_active.
    fold q. now rewrite ground_collision_active.
  - apply wall_collision_active.
  - intros deltaTime ps i p Hi Ha. rewrite (step_nth _ _ _ Hi). now rewrite Ha.
  - apply step_length.
  - now apply prune_In in H.
  - apply prune_In in H as [_ He]. unfold expired in He.
    apply orb_false_elim in He as [He _]. now apply negb_false_iff in He.
  - apply processInput_projectiles.
  - apply key_callback_projectiles.
Qed.

(** C5. [fireProjectile] builds its projectile from the angle, the power and
    the position of the cannon only: with [radianAngle = cannonAngle * PI /
    180] ([PI] is the program's constant 3.14159265359), the position is
    [cannonPosition + 40 * (cos radianAngle, sin radianAngle)], the velocity
    is [cannonPower * (cos radianAngle, sin radianAngle)], the radius is 5,
    the flag is set and [timeAlive] is 0; the projectile is pushed at the
    back of the collection and the cannon is not changed.  With angle 0 and
    power 50 the velocity is (50, 0): over the reals, and in binary32 for
    every [<cmath>] with [cos (0) = 1] and [sin (0) = 0]. *)
Theorem fireProjectile_spec :
  (forall (ops : FloatOps) (libm : cmath.Libm ops) (g : Globals),
     let radians := (cannonAngle g * PI / flit 180.0)%fl in
     fired g =
       mkProjectile
         (glm.Vec2 (glm.x (cannonPosition g) + flit 40.0 * cmath.cos radians)%fl
                   (glm.y (cannonPosition g) + flit 40.0 * cmath.sin radians)%fl)
         (glm.Vec2 (cannonPower g * cmath.cos radians)%fl
                   (cannonPower g * cmath.sin radians)%fl)
         (flit 5.0) true (flit 0.0)
     /\ projectiles (fireProjectile g) = projectiles g ++ [fired g]
     /\ cannonAngle (fireProjectile g) = cannonAngle g
     /\ cannonPower (fireProjectile g) = cannonPower g
     /\ cannonPosition (fireProjectile g) = cannonPosition g)
  /\ (forall (ops : FloatOps) (libm : cmath.Libm ops) (g g' : Globals),
        cannonAngle g = cannonAngle g' ->
        cannonPower g = cannonPower g' ->
        cannonPosition g = cannonPosition g' ->
        fired g = fired g')
  /\ (forall g : @Globals ideal,
        cannonAngle g = 0%R -> cannonPower g = 50%R ->
        velocity (@fired ideal ideal_libm g) = @glm.Vec2 ideal 50%R 0%R)
  /\ (forall (libm : cmath.Libm binary32) (g : @Globals binary32),
        @cmath.cos binary32 libm (S754_zero false) = flit 1.0 ->
        @cmath.sin binary32 libm (S754_zero false) = S754_zero false ->
        cannonAngle g = flit 0.0 -> cannonPower g = flit 50.0 ->
        velocity (fired g) = glm.Vec2 (flit 50.0) (flit 0.0)).
Proof.
  split; [|split; [|split]].
  - intros ops libm g radians. repeat split.
  - intros ops libm g g' Ha Hp Hc. unfold fired. now rewrite Ha, Hp, Hc.
  - intros g Ha Hp. unfold fired, new_Projectile. cbn [velocity].
    rewrite Ha, Hp. cbn. unfold Rdiv. rewrite !Rmult_0_l, cos_0, sin_0.
    f_equal; lra.
  - intros libm g Hcos Hsin Ha Hp. unfold fired, new_Projectile. cbn [velocity].
    rewrite Ha, Hp.
    change (flit 0.0 * PI / flit 180.0)%fl with (S754_zero false).
    now rewrite Hcos, Hsin.
Qed.

(** The flat cannon fires at (50, 0) in binary32. *)
Lemma fireProjectile_spec_witness :
  velocity (@fired binary32 libm_at_zero flat_cannon) = glm.Vec2 (flit 50.0) (flit 0.0).
Proof.
  apply (proj2 (proj2 (proj2 fireProjectile_spec)) libm_at_zero flat_cannon);
    reflexivity.
Defined.

(** Runs of the aim adjustments keep any property of the angle and of the
    power that each clamped assignment keeps. *)
Section AimInvariant.
Context {ops : FloatOps}.
Local Open Scope fl_scope.

Variables okAngle okPower : float -> Prop.
Hypothesis angle_up_ok :
  forall a, okAngle a -> okAngle (std.min (a + flit 1.0) (flit 90.0)).
Hypothesis angle_down_ok :
  forall a, okAngle a -> okAngle (std.max (a - flit 1.0) (flit 0.0)).
Hypothesis power_up_ok :
  forall w, okPower w -> okPower (std.min (w + flit 1.0) (flit 100.0)).
Hypothesis power_down_ok :
  forall w, okPower w -> okPower (std.max (w - flit 1.0) (flit 10.0)).

Lemma adjust_ok (a : Adjust) (g : Globals) :
  okAngle (cannonAngle g) /\ okPower (cannonPower g) ->
  okAngle (cannonAngle (adjust a g)) /\ okPower (cannonPower (adjust a g)).
Proof.
  intros [HA HP]. destruct a; cbn; auto.
Qed.

Lemma adjusts_ok (l : list Adjust) :
  forall g : Globals,
    okAngle (cannonAngle g) /\ okPower (cannonPower g) ->
    okAngle (cannonAngle (adjusts l g)) /\ okPower (cannonPower (adjusts l g)).
Proof.
  induction l as [|a l IH]; intros g Hg; [exact Hg|].
  cbn. apply IH. now apply adjust_ok.
Qed.
End AimInvariant.

Section ProcessInput.
Context {ops : FloatOps}.

Lemma adjusts_app (l1 l2 : list Adjust) (g : Globals) :
  adjusts (l1 ++ l2) g = adjusts l2 (adjusts l1 g).
Proof. apply fold_left_app. Qed.

Lemma processInput_adjusts (kb : Keyboard) (g : Globals) :
  processInput kb g = adjusts (pressed kb) g.
Proof.
  unfold processInput, pressed, when.
  destruct (KEY_UP kb), (KEY_DOWN kb), (KEY_RIGHT kb), (KEY_LEFT kb); reflexivity.
Qed.

Lemma processInputs_adjusts (kbs : list Keyboard) :
  forall g : Globals, processInputs kbs g = adjusts (flat_map pressed kbs) g.
Proof.
  induction kbs as [|kb kbs IH]; intros g; [reflexivity|].
  change (processInputs (kb :: kbs) g) with (processInputs kbs (processInput kb g)).
  change (flat_map pressed (kb :: kbs)) with (pressed kb ++ flat_map pressed kbs).
  rewrite adjusts_app, <- processInput_adjusts. apply IH.
Qed.
End ProcessInput.

(** The clamps over the reals. *)
Section IdealClamp.
Local Open Scope R_scope.

Lemma ideal_min_spec (a b : R) : @std.min ideal a b = Rmin a b.
Proof.
  unfold std.min, Rmin. cbn. unfold Rltb.
  destruct (Rlt_dec b a), (Rle_dec a b); lra.
Qed.

Lemma ideal_max_spec (a b : R) : @std.max ideal a b = Rmax a b.
Proof.
  unfold std.max, Rmax. cbn. unfold Rltb.
  destruct (Rlt_dec a b), (Rle_dec a b); lra.
Qed.

Lemma ideal_clamp_up (lo hi a : R) :
  lo <= hi -> lo <= a <= hi -> lo <= @std.min ideal (a + 1) hi <= hi.
Proof.
  intros Hlh Ha. rewrite ideal_min_spec. unfold Rmin.
  destruct (Rle_dec (a + 1) hi); lra.
Qed.

Lemma ideal_clamp_down (lo hi a : R) :
  lo <= hi -> lo <= a <= hi -> lo <= @std.max ideal (a - 1) lo <= hi.
Proof.
  intros Hlh Ha. rewrite ideal_max_spec. unfold Rmax.
  destruct (Rle_dec (a - 1) lo); lra.
Qed.
End IdealClamp.

(** The clamps in binary32: from 45 and 50 the adjustments only reach the
    integers of the two ranges, which is checked by running them. *)
Section Binary32Clamp.
Lemma b32_eqb_eq (a b : spec_float) : b32.eqb a b = true -> a = b.
Proof.
  destruct a as [s|s| |s m e], b as [s'|s'| |s' m' e']; cbn; try discriminate.
  - now intros ->%eqb_prop.
  - now intros ->%eqb_prop.
  - reflexivity.
  - intros [[->%eqb_prop ->%Pos.eqb_eq]%andb_prop ->%Z.eqb_eq]%andb_prop.
    reflexivity.
Qed.

Lemma b32_mem_forallb (f : spec_float -> bool) (l : list spec_float) (a : spec_float) :
  forallb f l = true -> b32.mem a l = true -> f a = true.
Proof.
  intros Hall [b [Hin ->%b32_eqb_eq]]%existsb_exists.
  now apply (proj1 (forallb_forall f l) Hall).
Qed.

Lemma b32_angle_up (a : @float binary32) :
  b32.mem a angles = true ->
  b32.mem (std.min (a + flit 1.0) (flit 90.0))%fl angles = true.
Proof.
  apply (b32_mem_forallb
           (fun a : @float binary32 => b32.mem (@std.min binary32 (a + flit 1.0) (flit 90.0))%fl angles)).
  vm_compute. reflexivity.
Qed.

Lemma b32_angle_down (a : @float binary32) :
  b32.mem a angles = true ->
  b32.mem (std.max (a - flit 1.0) (flit 0.0))%fl angles = true.
Proof.
  apply (b32_mem_forallb
           (fun a : @float binary32 => b32.mem (@std.max binary32 (a - flit 1.0) (flit 0.0))%fl angles)).
  vm_compute. reflexivity.
Qed.

Lemma b32_power_up (w : @float binary32) :
  b32.mem w powers = true ->
  b32.mem (std.min (w + flit 1.0) (flit 100.0))%fl powers = true.
Proof.
  apply (b32_mem_forallb
           (fun a : @float binary32 => b32.mem (@std.min binary32 (a + flit 1.0) (flit 100.0))%fl powers)).
  vm_compute. reflexivity.
Qed.

Lemma b32_power_down (w : @float binary32) :
  b32.mem w powers = true ->
  b32.mem (std.max (w - flit 1.0) (flit 10.0))%fl powers = true.
Proof.
  apply (b32_mem_forallb
           (fun a : @float binary32 => b32.mem (@std.max binary32 (a - flit 1.0) (flit 10.0))%fl powers)).
  vm_compute. reflexivity.
Qed.

Lemma b32_angles_bounded (a : @float binary32) :
  b32.mem a angles = true ->
  (flit 0.0 <=? a)%fl = true /\ (a <=? flit 90.0)%fl = true.
Proof.
  intros Ha. apply andb_prop.
  apply (b32_mem_forallb
           (fun a : @float binary32 => (flit 0.0 <=? a)%fl && (a <=? flit 90.0)%fl)
           angles a); [|exact Ha].
  vm_compute. reflexivity.
Qed.

Lemma b32_powers_bounded (w : @float binary32) :
  b32.mem w powers = true ->
  (flit 10.0 <=? w)%fl = true /\ (w <=? flit 100.0)%fl = true.
Proof.
  intros Hw. apply andb_prop.
  apply (b32_mem_forallb
           (fun a : @float binary32 => (flit 10.0 <=? a)%fl && (a <=? flit 100.0)%fl)
           powers w); [|exact Hw].
  vm_compute. reflexivity.
Qed.
End Binary32Clamp.

Section AimRange.
Lemma ideal_aim_range (l : list Adjust) :
  let g := adjusts l (@initial ideal) in
  (0 <= cannonAngle g <= 90)%R /\ (10 <= cannonPower g <= 100)%R.
Proof.
  apply (@adjusts_ok ideal (fun a => (0 <= a <= 90)%R) (fun w => (10 <= w <= 100)%R)).
  - intros a Ha. cbn. unfold Q2R; cbn.
    replace (10 * / 10)%R with 1%R by lra. replace (900 * / 10)%R with 90%R by lra.
    apply ideal_clamp_up; lra.
  - intros a Ha. cbn. unfold Q2R; cbn.
    replace (10 * / 10)%R with 1%R by lra. replace (0 * / 10)%R with 0%R by lra.
    apply ideal_clamp_down; lra.
  - intros w Hw. cbn. unfold Q2R; cbn.
    replace (10 * / 10)%R with 1%R by lra. replace (1000 * / 10)%R with 100%R by lra.
    apply ideal_clamp_up; lra.
  - intros w Hw. cbn. unfold Q2R; cbn.
    replace (10 * / 10)%R with 1%R by lra. replace (100 * / 10)%R with 10%R by lra.
    apply ideal_clamp_down; lra.
  - cbn. unfold Q2R; cbn. lra.
Qed.

Lemma b32_aim_range (l : list Adjust) :
  let g := adjusts l (@initial binary32) in
  b32.mem (cannonAngle g) angles = true /\ b32.mem (cannonPower g) powers = true.
Proof.
  apply (@adjusts_ok binary32 (fun a => b32.mem a angles = true)
                              (fun w => b32.mem w powers = true)).
  - exact b32_angle_up.
  - exact b32_angle_down.
  - exact b32_power_up.
  - exact b32_power_down.
  - split; reflexivity.
Qed.
End AimRange.

(** C6. From the defaults, angle 45 and power 50, every run of the four
    adjustments ([+1] and [-1] on the angle, clamped by [std::min] with 90
    and [std::max] with 0; the same on the power with 100 and 10), and so
    every run of [processInput] calls, leaves the angle in [0, 90] and the
    power in [10, 100].  The adjustments are total functions: nothing is
    rejected.  Over the reals and in binary32. *)
Theorem aim_stays_in_range :
  (forall l : list Adjust,
     let g := adjusts l (@initial ideal) in
     (0 <= cannonAngle g <= 90)%R /\ (10 <= cannonPower g <= 100)%R)
  /\ (forall kbs : list Keyboard,
        let g := processInputs kbs (@initial ideal) in
        (0 <= cannonAngle g <= 90)%R /\ (10 <= cannonPower g <= 100)%R)
  /\ (forall l : list Adjust,
        let g := adjusts l (@initial binary32) in
        ((flit 0.0 <=? cannonAngle g)%fl = true /\ (cannonAngle g <=? flit 90.0)%fl = true)
        /\ ((flit 10.0 <=? cannonPower g)%fl = true
            /\ (cannonPower g <=? flit 100.0)%fl = true))
  /\ (forall kbs : list Keyboard,
        let g := processInputs kbs (@initial binary32) in
        ((flit 0.0 <=? cannonAngle g)%fl = true /\ (cannonAngle g <=? flit 90.0)%fl = true)
        /\ ((flit 10.0 <=? cannonPower g)%fl = true
            /\ (cannonPower g <=? flit 100.0)%fl = true)).
Proof.
  assert (Hb : forall l : list Adjust,
             let g := adjusts l (@initial binary32) in
             ((flit 0.0 <=? cannonAngle g)%fl = true
              /\ (cannonAngle g <=? flit 90.0)%fl = true)
             /\ ((flit 10.0 <=? cannonPower g)%fl = true
                 /\ (cannonPower g <=? flit 100.0)%fl = true)).
  { intros l g. destruct (b32_aim_range l) as [Ha Hw]. split.
    - now apply b32_angles_bounded.
    - now apply b32_powers_bounded. }
  split; [|split; [|split]].
  - exact ideal_aim_range.
  - intros kbs. cbv zeta. rewrite processInputs_adjusts. apply ideal_aim_range.
  - exact Hb.
  - intros kbs. cbv zeta. rewrite processInputs_adjusts. apply Hb.
Qed.

(** What [update] leaves of the clamps. *)
Section Clamps.
Context {ops : FloatOps}.
Local Open Scope fl_scope.

Lemma ground_collision_radius (q : Projectile) : radius (ground_collision q) = radius q.
Proof. apply ground_collision_keeps_x. Qed.

Lemma wall_collision_radius (q : Projectile) : radius (wall_collision q) = radius q.
Proof. apply wall_collision_keeps_y. Qed.

Lemma update_radius (deltaTime : float) (p : Projectile) :
  radius (update deltaTime p) = radius p.
Proof.
  now rewrite update_unfold, wall_collision_radius, ground_collision_radius.
Qed.

(** After [update], [position.y] is the radius, or a value the test
    [position.y <= radius] refused. *)
Lemma update_y_cases (deltaTime : float) (p : Projectile) :
  let p' := update deltaTime p in
  glm.y (position p') = radius p'
  \/ (glm.y (position p') <=? radius p') = false.
Proof.
  cbv zeta. rewrite update_radius, update_unfold.
  destruct (wall_collision_keeps_y (ground_collision (integrated deltaTime p))) as [-> _].
  destruct (glm.y (position (integrated deltaTime p)) <=? radius (integrated deltaTime p))
    eqn:Hc.
  - left. now rewrite ground_collision_hit_y.
  - right. now rewrite ground_collision_miss.
Qed.

(** After [update], [position.x] is [800 - radius], or a value the test
    [position.x >= 800 - radius] refused. *)
Lemma update_x_cases (deltaTime : float) (p : Projectile) :
  let p' := update deltaTime p in
  glm.x (position p') = flit 800 - radius p'
  \/ (glm.x (position p') >=? flit 800 - radius p') = false.
Proof.
  cbv zeta. rewrite update_radius, update_unfold.
  set (q := ground_collision (integrated deltaTime p)).
  assert (Hr : radius q = radius p)
    by (subst q; now rewrite ground_collision_radius).
  destruct (glm.x (position q) >=? of_int WINDOW_WIDTH - radius q) eqn:Hc.
  - left. rewrite (wall_collision_hit q Hc). cbn. now rewrite Hr.
  - right. rewrite (wall_collision_miss q Hc). now rewrite <- Hr.
Qed.
End Clamps.

Section Binary32Strict.
Lemma SFltb_irrefl (a : spec_float) : SFltb a a = false.
Proof.
  unfold SFltb. pose proof (SFcompare_antisym a a) as H.
  destruct (SFcompare a a) as [[]|]; cbn in H; congruence.
Qed.

Lemma SFltb_SFleb (a b : spec_float) : SFltb a b = true -> SFleb a b = true.
Proof. unfold SFltb, SFleb. now destruct (SFcompare a b) as [[]|]. Qed.

Lemma SFleb_false_SFltb (a b : spec_float) : SFleb a b = false -> SFltb a b = false.
Proof. unfold SFltb, SFleb. now destruct (SFcompare a b) as [[]|]. Qed.
End Binary32Strict.

(** C7, as the code has it.  [update] never writes [radius], so the radius
    is positive after the call exactly when it was before.  The two clamps
    need nothing of the state before: over the reals, after every [update],
    [position.y >= radius] and [position.x <= 800 - radius]; in binary32,
    after every [update], neither [position.y < radius] nor
    [position.x > 800 - radius] tests true, and [radius <= position.y] and
    [position.x <= 800 - radius] test true when none of the compared values
    is NaN.  The loop of [main] runs [update] on the active elements and
    leaves the others as they are. *)
Theorem update_clamps :
  (forall (ops : FloatOps) (deltaTime : float) (p : Projectile),
     radius (update deltaTime p) = radius p)
  /\ (forall (deltaTime : @float ideal) (p : Projectile),
        let p' := update deltaTime p in
        ((radius p > 0)%R -> (radius p' > 0)%R)
        /\ (glm.y (position p') >= radius p')%R
        /\ (glm.x (position p') <= 800 - radius p')%R)
  /\ (forall (deltaTime : @float binary32) (p : Projectile),
        let p' := update deltaTime p in
        ((glm.y (position p') <? radius p')%fl = false
         /\ (glm.x (position p') >? flit 800 - radius p')%fl = false)
        /\ (b32.is_nan (radius p') = false ->
            b32.is_nan (glm.y (position p')) = false ->
            b32.is_nan (glm.x (position p')) = false ->
            b32.is_nan (flit 800 - radius p')%fl = false ->
            (radius p' <=? glm.y (position p'))%fl = true
            /\ (glm.x (position p') <=? flit 800 - radius p')%fl = true))
  /\ (forall (ops : FloatOps) (deltaTime : float) (ps : list Projectile)
             (i : nat) (p : Projectile),
        nth_error ps i = Some p ->
        nth_error (step deltaTime ps) i = Some (if active p then update deltaTime p else p)).
Proof.
  split; [|split; [|split]].
  - intros ops deltaTime p. apply update_radius.
  - intros deltaTime p p'. split; [|split].
    + subst p'. now rewrite update_radius.
    + destruct (update_y_cases deltaTime p) as [H|H]; fold p' in H.
      * rewrite H. lra.
      * apply Rleb_false in H. lra.
    + destruct (update_x_cases deltaTime p) as [H|H]; fold p' in H.
      * rewrite H. ideal_tests. lra.
      * apply Rleb_false in H. ideal_tests. lra.
  - intros deltaTime p p'.
    pose proof (update_y_cases deltaTime p) as Hy.
    pose proof (update_x_cases deltaTime p) as Hx.
    fold p' in Hy, Hx. cbv zeta in Hy, Hx. split; [split|].
    + destruct Hy as [-> | Hy]; [apply SFltb_irrefl | now apply SFleb_false_SFltb].
    + destruct Hx as [-> | Hx]; [apply SFltb_irrefl | now apply SFleb_false_SFltb].
    + intros Nr Ny Nx Nw. split.
      * destruct Hy as [-> | Hy]; [now apply SFleb_refl|].
        apply SFltb_SFleb. now apply SFleb_false_gt.
      * destruct Hx as [-> | Hx]; [now apply SFleb_refl|].
        apply SFltb_SFleb. now apply SFleb_false_gt.
  - intros ops deltaTime ps i p Hi. now apply step_nth.
Qed.

(** The clamps on the run of the corner shot over the reals. *)
Lemma update_clamps_witness :
  let p' := @update ideal dt64 corner_shot in
  (radius p' > 0)%R
  /\ (glm.y (position p') >= radius p')%R
  /\ (glm.x (position p') <= 800 - radius p')%R.
Proof.
  cbv zeta.
  destruct (proj1 (proj2 update_clamps) dt64 corner_shot) as [Hr Hyx].
  split; [|exact Hyx].
  apply Hr. cbn. unfold Q2R. cbn. lra.
Defined.

(** C7 as stated fails on the radius: a projectile built with radius 0 has
    radius 0 after [update], over the reals and in binary32. *)
Lemma update_clamps_counterexample :
  (radius (@update ideal dt64 point_shot) = 0%R
   /\ ~ (radius (@update ideal dt64 point_shot) > 0)%R)
  /\ (radius (@update binary32 dt64 point_shot) = S754_zero false
      /\ (flit 0.0 <? radius (@update binary32 dt64 point_shot))%fl = false).
Proof.
  split.
  - assert (H : radius (@update ideal dt64 point_shot) = 0%R).
    { rewrite update_radius. cbn. unfold Q2R. cbn. lra. }
    split; [exact H|]. rewrite H. lra.
  - split; reflexivity.
Qed.

(** A call of [update] that meets neither the ground nor the wall. *)
Section FreeFlight.
Context {ops : FloatOps}.
Local Open Scope fl_scope.

Lemma update_free (deltaTime : float) (p : Projectile) :
  let q := integrated deltaTime p in
  (glm.y (position q) <=? radius q) = false ->
  (glm.x (position q) >=? flit 800 - radius q) = false ->
  update deltaTime p = q.
Proof.
  intros q Hg Hw. rewrite update_unfold. fold q.
  rewrite (ground_collision_miss q Hg). now apply wall_collision_miss.
Qed.

Lemma ground_collision_hit_vx (q : Projectile) :
  (glm.y (position q) <=? radius q) = true ->
  glm.x (velocity (ground_collision q)) = glm.x (velocity q) * flit 0.5.
Proof.
  intros Hc. unfold ground_collision, ifelse, semi, skip. rewrite Hc. cbn.
  now destruct (flt _ _).
Qed.

Lemma step_singleton (deltaTime : float) (p : Projectile) :
  active p = true -> step deltaTime [p] = [update deltaTime p].
Proof. intros Ha. unfold step. cbn [map]. now rewrite Ha. Qed.

Lemma singleton_inj {A : Type} (a b : A) : [a] = [b] -> a = b.
Proof. intros H. now injection H. Qed.

Lemma step_fixed (deltaTime : float) (ps : list Projectile) :
  (forall p, In p ps -> active p = true -> update deltaTime p = p) ->
  step deltaTime ps = ps.
Proof.
  intros H. unfold step. rewrite <- (map_id ps) at 2.
  apply map_ext_in. intros p Hin.
  destruct (active p) eqn:Ha; [now apply H | reflexivity].
Qed.
End FreeFlight.

(** Zero elapsed time over the reals: integration changes nothing. *)
Section IdealZeroStep.
Local Open Scope R_scope.

Lemma ideal_integrated_zero (p : @Projectile ideal) : integrated (flit 0.0) p = p.
Proof.
  destruct p as [[px py] [vx vy] r a t]. unfold integrated. cbn. unfold Q2R. cbn.
  f_equal; [f_equal| f_equal|]; lra.
Qed.

Lemma ideal_update_zero (p : @Projectile ideal) :
  glm.y (position p) > radius p ->
  glm.x (position p) < 800 - radius p ->
  update (flit 0.0) p = p.
Proof.
  intros Hy Hx. rewrite <- (ideal_integrated_zero p) at 2.
  apply update_free; rewrite ideal_integrated_zero.
  - apply Rleb_false. lra.
  - apply Rleb_false. ideal_tests. lra.
Qed.

(** The barrel end is inside the playfield whatever the angle. *)
Lemma ideal_fired_inside (g : @Globals ideal) :
  cannonPosition g = @glm.Vec2 ideal 50 50 ->
  let p := @fired ideal ideal_libm g in
  glm.y (position p) > radius p /\ glm.x (position p) < 800 - radius p.
Proof.
  intros Hc. unfold fired, new_Projectile. cbn. rewrite Hc. cbn. unfold Q2R. cbn.
  set (r := cannonAngle g * _ / _).
  pose proof (COS_bound r) as [? ?]. pose proof (SIN_bound r) as [? ?].
  split; lra.
Qed.
End IdealZeroStep.

(** Zero elapsed time in binary32: adding or subtracting [+0]. *)
Section Binary32ZeroStep.
Lemma b32_sub_zero (a : @float binary32) : (a - flit 0.0)%fl = a.
Proof. destruct a as [[]|[]| |s m e]; reflexivity. Qed.

Lemma b32_mul_zero (v : @float binary32) :
  b32.is_finite v = true -> exists s, (v * flit 0.0)%fl = S754_zero s.
Proof.
  destruct v as [s|s| |s m e]; cbn; try discriminate; intros _; eauto.
Qed.

Lemma b32_add_zero (a : @float binary32) (s : bool) :
  b32.is_zero a = false -> (a + S754_zero s)%fl = a.
Proof.
  destruct a as [s'|s'| |s' m e]; cbn; try discriminate; reflexivity.
Qed.

Lemma b32_add_pos_zero (a : @float binary32) :
  a <> S754_zero true -> (a + flit 0.0)%fl = a.
Proof.
  destruct a as [[]|s'| |s' m e]; cbn; try reflexivity. congruence.
Qed.

Lemma b32_integrated_zero (p : @Projectile binary32) :
  b32.is_finite (glm.x (velocity p)) = true ->
  b32.is_finite (glm.y (velocity p)) = true ->
  b32.is_zero (glm.x (position p)) = false ->
  b32.is_zero (glm.y (position p)) = false ->
  timeAlive p <> S754_zero true ->
  integrated (flit 0.0) p = p.
Proof.
  destruct p as [[px py] [vx vy] r a t]. cbn [position velocity timeAlive glm.x glm.y].
  intros Fx Fy Zx Zy Zt. unfold integrated.
  cbn [position velocity timeAlive radius active glm.x glm.y].
  change (@GRAVITY binary32 * flit 0.0)%fl with (@flit binary32 0.0).
  rewrite b32_sub_zero, (b32_add_pos_zero Zt).
  destruct (b32_mul_zero vx Fx) as [sx ->], (b32_mul_zero vy Fy) as [sy ->].
  now rewrite !b32_add_zero.
Qed.
End Binary32ZeroStep.

(** C8, as the code has it.  [update] has no division and is a total
    function.  With [deltaTime = 0] the integration changes nothing, but the
    two collision blocks still run: the call is a no-op on a projectile that
    is above the ground ([position.y > radius]) and left of the wall
    ([position.x < 800 - radius]), and the loop of [main] is a no-op on a
    collection whose active elements are all so.  Over the reals this holds
    for every such projectile; in binary32 for those whose velocity is finite,
    whose coordinates are not zeros and whose [timeAlive] is not [-0].  The
    projectile fired from the initial cannon (angle 45, power 50) and pushed
    into the collection is left exactly where it spawned, over the reals. *)
Theorem zero_step_is_noop_off_the_boundaries :
  (forall p : @Projectile ideal,
     (glm.y (position p) > radius p)%R ->
     (glm.x (position p) < 800 - radius p)%R ->
     update (flit 0.0) p = p)
  /\ (forall ps : list (@Projectile ideal),
        (forall p, In p ps -> active p = true ->
                   (glm.y (position p) > radius p)%R
                   /\ (glm.x (position p) < 800 - radius p)%R) ->
        step (flit 0.0) ps = ps)
  /\ (let g := @fireProjectile ideal ideal_libm initial in
      projectiles g = [@fired ideal ideal_libm initial]
      /\ step (flit 0.0) (projectiles g) = projectiles g)
  /\ (forall p : @Projectile binary32,
        (glm.y (position p) <=? radius p)%fl = false ->
        (glm.x (position p) >=? flit 800 - radius p)%fl = false ->
        b32.is_finite (glm.x (velocity p)) = true ->
        b32.is_finite (glm.y (velocity p)) = true ->
        b32.is_zero (glm.x (position p)) = false ->
        b32.is_zero (glm.y (position p)) = false ->
        timeAlive p <> S754_zero true ->
        update (flit 0.0) p = p).
Proof.
  split; [|split; [|split]].
  - exact ideal_update_zero.
  - intros ps H. apply step_fixed. intros p Hin Ha.
    destruct (H p Hin Ha). now apply ideal_update_zero.
  - cbv zeta. split; [reflexivity|].
    apply step_fixed. intros p [<-|[]] _.
    assert (Hc : cannonPosition (@initial ideal) = @glm.Vec2 ideal 50%R 50%R).
    { cbn. unfold Q2R. cbn. f_equal; lra. }
    destruct (ideal_fired_inside (@initial ideal) Hc).
    now apply ideal_update_zero.
  - intros p Hg Hw Fx Fy Zx Zy Zt.
    rewrite <- (b32_integrated_zero p Fx Fy Zx Zy Zt) at 2.
    apply update_free; now rewrite (b32_integrated_zero p Fx Fy Zx Zy Zt).
Qed.

(** The corner shot, in the air again after its bounce at 10 above the
    ground, through a zero step in binary32. *)
Lemma zero_step_is_noop_off_the_boundaries_witness :
  let p := @mkProjectile binary32 (glm.Vec2 (flit 100.0) (flit 15.0))
             (glm.Vec2 (flit 10.0) (flit (-3.0))) (flit 5.0) true (flit 1.0) in
  update (flit 0.0) p = p.
Proof.
  cbv zeta.
  apply (proj2 (proj2 (proj2 zero_step_is_noop_off_the_boundaries)));
    try reflexivity.
  discriminate.
Defined.

(** C8 as stated fails on the ground: the projectile that has just bounced
    has [position.y = radius], so a step with [deltaTime = 0] runs the
    ground block again; its horizontal velocity goes from 10 to 5 and the
    collection is not the one before the step.  Over the reals and in
    binary32. *)
Lemma zero_step_counterexample :
  (glm.x (velocity (@bounced_shot ideal)) = 10%R
   /\ glm.x (velocity (@update ideal (flit 0.0) bounced_shot)) = 5%R
   /\ @step ideal (flit 0.0) [bounced_shot] <> [bounced_shot])
  /\ (glm.x (velocity (@bounced_shot binary32)) = flit 10.0
      /\ velocity (@update binary32 (flit 0.0) bounced_shot)
         = glm.Vec2 (flit 5.0) (flit (-1.225))
      /\ @step binary32 (flit 0.0) [bounced_shot] <> [bounced_shot]).
Proof.
  split.
  - assert (H10 : glm.x (velocity (@bounced_shot ideal)) = 10%R).
    { cbn. unfold Q2R. cbn. lra. }
    assert (H5 : glm.x (velocity (@update ideal (flit 0.0) bounced_shot)) = 5%R).
    { rewrite update_unfold, ideal_integrated_zero.
      rewrite wall_collision_miss.
      - rewrite ground_collision_hit_vx.
        + rewrite H10. cbn. unfold Q2R. cbn. lra.
        + apply Rleb_true. cbn. lra.
      - destruct (ground_collision_keeps_x (@bounced_shot ideal)) as [-> ->].
        apply Rleb_false. ideal_tests. lra. }
    split; [exact H10|]. split; [exact H5|].
    intros Heq.
    rewrite (step_singleton (flit 0.0) (@bounced_shot ideal) eq_refl) in Heq.
    apply singleton_inj in Heq.
    rewrite Heq, H10 in H5. lra.
  - split; [reflexivity|]. split; [reflexivity|].
    intros Heq.
    rewrite (step_singleton (flit 0.0) (@bounced_shot binary32) eq_refl) in Heq.
    apply singleton_inj in Heq.
    apply (f_equal (fun p : @Projectile binary32 =>
                      b32.eqb (glm.x (velocity p)) (b32.of_Q 10.0))) in Heq.
    vm_compute in Heq. discriminate.
Qed.

(** Settling on ground contact, over the reals. *)
Section IdealSettle.
Local Open Scope R_scope.

Lemma ideal_length_sqr (v : @glm.vec2 ideal) :
  0 <= glm.length v /\ glm.length v * glm.length v = glm.x v * glm.x v + glm.y v * glm.y v.
Proof.
  unfold glm.length, glm.dot. cbn. split.
  - apply sqrt_pos.
  - apply sqrt_sqrt. nra.
Qed.

(** The halved speed after gravity is below 1 when the speed before plus
    the speed gained is below 2. *)
Lemma ideal_halved_speed (v : @glm.vec2 ideal) (a : R) :
  glm.y v <= 0 -> 0 <= a -> glm.length v + a < 2 ->
  glm.length (glm.scale (glm.Vec2 (glm.x v) (glm.y v - a)) (flit 0.5)) < 1.
Proof.
  intros Hy Ha Hs. destruct (ideal_length_sqr v) as [H0 Hsq].
  unfold glm.length, glm.dot, glm.scale. cbn. unfold Q2R. cbn.
  apply sqrt_lt_1.
  assert (Hvy : - glm.y v <= glm.length v) by nra.
  nra.
Qed.

Lemma ideal_active_update (deltaTime : @float ideal) (p : @Projectile ideal) :
  let q := integrated deltaTime p in
  active (update deltaTime p) =
    active p && negb (Rleb (glm.y (position q)) (radius q)
                      && Rltb (glm.length (glm.scale (velocity q) (flit 0.5))) 1).
Proof.
  cbv zeta. rewrite update_unfold, wall_collision_active, ground_collision_active.
  cbn. unfold Q2R. cbn.
  replace (10 * / 10) with 1 by lra. reflexivity.
Qed.
End IdealSettle.

(** C9, as the code has it.  Gravity is applied before the settle test, so
    the speed tested is the one after gravity, halved.  Over the reals: a
    projectile with [position.y] exactly at [radius] and a velocity that
    does not point up is inactive after one [update] (and after one turn of
    the loop of [main]) for every positive [deltaTime] such that its speed
    plus [9.81 * deltaTime] is below 2; for a speed below 1.0 that is every
    [deltaTime] up to [1 / 9.81]. *)
Theorem slow_ground_contact_settles :
  forall (deltaTime : @float ideal) (p : @Projectile ideal),
    glm.y (position p) = radius p ->
    (glm.y (velocity p) <= 0)%R ->
    (0 < deltaTime)%R ->
    (glm.length (velocity p) + 9.81 * deltaTime < 2)%R ->
    active (update deltaTime p) = false
    /\ map active (step deltaTime [p]) = [false].
Proof.
  intros deltaTime p Hy Hv Hdt Hs.
  assert (Hu : active (@update ideal deltaTime p) = false).
  { rewrite ideal_active_update.
    assert (Hg : Rleb (glm.y (position (integrated deltaTime p)))
                      (radius (integrated deltaTime p)) = true).
    { apply Rleb_true. cbn. unfold Q2R. cbn. rewrite Hy. nra. }
    assert (Hl : Rltb (glm.length (glm.scale (velocity (integrated deltaTime p))
                                             (@flit ideal 0.5))) 1 = true).
    { apply Rltb_true.
      pose proof (@ideal_halved_speed (velocity p) (9.81 * deltaTime)%R Hv) as H.
      unfold integrated. cbn [velocity]. unfold GRAVITY.
      replace (@flit ideal 9.81) with 9.81%R by (cbn; unfold Q2R; cbn; lra).
      apply H; lra. }
    rewrite Hg, Hl. cbn. apply andb_false_r. }
  split; [exact Hu|].
  unfold step. cbn [map]. destruct (active p) eqn:Ha; [now rewrite Hu | now rewrite Ha].
Qed.

(** The slow shot (speed 0.5, straight down) settles in a sixty-fourth of a
    second. *)
Lemma slow_ground_contact_settles_witness :
  active (@update ideal dt64 slow_shot) = false
  /\ map active (@step ideal dt64 [slow_shot]) = [false].
Proof.
  apply (@slow_ground_contact_settles dt64 slow_shot).
  - reflexivity.
  - cbn. unfold Q2R. cbn. lra.
  - cbn. unfold Q2R. cbn. lra.
  - assert (H : (glm.length (velocity (@slow_shot ideal)) < 1)%R).
    { unfold glm.length, glm.dot. cbn. unfold Q2R. cbn. apply sqrt_lt_1. lra. }
    assert (Hd : (@dt64 ideal = 15625 / 1000000)%R) by (cbn; unfold Q2R; cbn; lra).
    rewrite Hd. lra.
Defined.

(** C9 as stated fails for a long step: the slow shot (on the ground, speed
    0.5 straight down) stepped by one second is still active, over the
    reals and in binary32, where it leaves upwards at about 3.6; stepped by
    a sixty-fourth of a second it settles in binary32 as well. *)
Lemma slow_ground_contact_counterexample :
  (glm.y (position (@slow_shot ideal)) = radius (@slow_shot ideal)
   /\ (0 < @flit ideal 1.0)%R
   /\ active (@update ideal (flit 1.0) slow_shot) = true)
  /\ (glm.y (position (@slow_shot binary32)) = radius (@slow_shot binary32)
      /\ glm.length (velocity (@slow_shot binary32)) = flit 0.5
      /\ (@flit binary32 0.0 <? flit 1.0)%fl = true
      /\ active (@update binary32 (flit 1.0) slow_shot) = true
      /\ active (@update binary32 dt64 slow_shot) = false).
Proof.
  split.
  - split; [reflexivity|]. split; [cbn; unfold Q2R; cbn; lra|].
    rewrite ideal_active_update.
    assert (Hl : Rltb (glm.length (glm.scale (velocity (integrated (@flit ideal 1.0) slow_shot))
                                             (@flit ideal 0.5))) 1 = false).
    { apply Rltb_false. unfold glm.length, glm.dot. cbn. unfold Q2R. cbn.
      apply sqrt_ge_1. lra. }
    rewrite Hl. now rewrite andb_false_r.
  - repeat split; reflexivity.
Qed.

(** * Further properties of the program *)

(** ** One turn of the main loop, in every arithmetic *)

Section FrameFacts.
Context {ops : FloatOps} {libm : cmath.Libm ops}.
Local Open Scope fl_scope.

Lemma step_app (deltaTime : float) (a b : list Projectile) :
  step deltaTime (a ++ b) = step deltaTime a ++ step deltaTime b.
Proof. apply map_app. Qed.

Lemma prune_app (a b : list Projectile) : prune (a ++ b) = prune a ++ prune b.
Proof. apply filter_app. Qed.

Lemma prune_live (ps : list Projectile) : Forall live (prune ps).
Proof.
  apply Forall_forall. intros p [_ He]%prune_In. unfold expired in He.
  apply orb_false_elim in He as [Ha Ht]. apply negb_false_iff in Ha. now split.
Qed.

Lemma prune_fixed (ps : list Projectile) : Forall live ps -> prune ps = ps.
Proof.
  induction 1 as [|p ps [Ha Ht] _ IH]; [reflexivity|].
  unfold prune, std.erase_remove_if in *. cbn [filter].
  unfold expired at 1. rewrite Ha, Ht. cbn. now rewrite IH.
Qed.

Lemma processInput_aim_only (kb : Keyboard) (g : Globals) :
  cannonPosition (processInput kb g) = cannonPosition g
  /\ lastFrameTime (processInput kb g) = lastFrameTime g
  /\ fireCannon (processInput kb g) = fireCannon g
  /\ shouldClose (processInput kb g) = shouldClose g.
Proof.
  unfold processInput, when.
  destruct (KEY_LEFT kb), (KEY_RIGHT kb), (KEY_DOWN kb), (KEY_UP kb); repeat split.
Qed.

Lemma processInput_clock (kb : Keyboard) (t : float) (g : Globals) :
  processInput kb (set_lastFrameTime t g) = set_lastFrameTime t (processInput kb g).
Proof.
  unfold processInput, when.
  destruct (KEY_LEFT kb), (KEY_RIGHT kb), (KEY_DOWN kb), (KEY_UP kb); reflexivity.
Qed.

Lemma frame_unfold (t : float) (kb : Keyboard) (g : Globals) :
  let g1 := processInput kb g in
  let dt := t - lastFrameTime g in
  frame t kb g =
    mkGlobals (cannonAngle g1) (cannonPower g1) (cannonPosition g)
      (prune (step dt (projectiles g ++ if fireCannon g then [fired g1] else [])))
      t false (shouldClose g).
Proof.
  cbv zeta. unfold frame. rewrite processInput_clock.
  destruct (processInput_aim_only kb g) as (Hc & Hl & Hf & Hs).
  pose proof (processInput_projectiles kb g) as Hp.
  cbn [fireCannon set_lastFrameTime]. rewrite Hf.
  destruct (fireCannon g) eqn:Hfire;
    unfold set_projectiles, set_fireCannon, fireProjectile, set_lastFrameTime, fired;
    cbn; rewrite ?Hp, ?Hc, ?Hs, ?Hf, ?app_nil_r; reflexivity.
Qed.
End FrameFacts.

Section ListFacts.
Lemma flat_map_ext_Forall {A B : Type} (f h : A -> list B) (l : list A) :
  Forall (fun a => f a = h a) l -> flat_map f l = flat_map h l.
Proof.
  induction 1 as [|a l Ha _ IH]; [reflexivity|]. cbn. now rewrite Ha, IH.
Qed.

Lemma filter_length_le {A : Type} (f : A -> bool) (l : list A) :
  (length (filter f l) <= length l)%nat.
Proof.
  induction l as [|a l IH]; [apply Nat.le_refl|].
  cbn. destruct (f a); cbn; lia.
Qed.
End ListFacts.

(** X1.  After every turn of the main loop, in every arithmetic, the
    collection holds only projectiles that are active and whose [timeAlive]
    does not test above 10.0: a projectile that settles is never carried
    into the next turn, and the test [projectile.active] in
    [drawProjectiles] succeeds on all it meets, so that every stored
    projectile is drawn.  The turn also leaves [fireCannon] cleared and
    [lastFrameTime] at the clock it read. *)
Theorem frame_leaves_only_live_projectiles :
  forall (ops : FloatOps) (libm : cmath.Libm ops)
         (t : float) (kb : Keyboard) (g : Globals),
    Forall live (projectiles (frame t kb g))
    /\ drawProjectiles (frame t kb g)
       = flat_map (fun p =>
                     [glColor3f (flit 0.9) (flit 0.1) (flit 0.1); glBegin GL_TRIANGLE_FAN;
                      glVertex2f (glm.x (position p)) (glm.y (position p))]
                     ++ rim (glm.x (position p)) (glm.y (position p)) (radius p)
                     ++ [glEnd])
                  (projectiles (frame t kb g))
    /\ fireCannon (frame t kb g) = false
    /\ lastFrameTime (frame t kb g) = t.
Proof.
  intros ops libm t kb g. rewrite frame_unfold.
  cbn [projectiles fireCannon lastFrameTime].
  split; [apply prune_live|]. split; [|now split].
  unfold drawProjectiles. cbn [projectiles].
  apply flat_map_ext_Forall.
  eapply Forall_impl; [|apply prune_live].
  intros p [Ha _]. unfold drawProjectile. now rewrite Ha.
Qed.

(** X2.  What a turn does to the collection, in every arithmetic: the aim is
    adjusted first, so a projectile fired in this turn leaves with the angle
    and power of this turn's key state; it is pushed behind the stored ones
    and integrated in the very turn it is fired, with the same [deltaTime]
    (the clock minus [lastFrameTime]); at most one projectile is added per
    turn, and none unless [fireCannon] was set. *)
Theorem frame_fires_after_input :
  forall (ops : FloatOps) (libm : cmath.Libm ops)
         (t : float) (kb : Keyboard) (g : Globals),
    let dt := (t - lastFrameTime g)%fl in
    projectiles (frame t kb g)
    = prune (step dt (projectiles g)
             ++ (if fireCannon g then [update dt (fired (processInput kb g))] else []))
    /\ cannonAngle (frame t kb g) = cannonAngle (processInput kb g)
    /\ cannonPower (frame t kb g) = cannonPower (processInput kb g)
    /\ (length (projectiles (frame t kb g))
        <= length (projectiles g) + (if fireCannon g then 1 else 0))%nat.
Proof.
  intros ops libm t kb g dt.
  assert (Hp : projectiles (frame t kb g)
               = prune (step dt (projectiles g)
                        ++ (if fireCannon g
                            then [update dt (fired (processInput kb g))] else []))).
  { rewrite frame_unfold. cbn [projectiles]. fold dt. rewrite step_app. f_equal. f_equal.
    destruct (fireCannon g); reflexivity. }
  split; [exact Hp|]. rewrite Hp. rewrite frame_unfold. cbn [cannonAngle cannonPower].
  split; [reflexivity|]. split; [reflexivity|].
  unfold prune, std.erase_remove_if.
  eapply Nat.le_trans; [apply filter_length_le|].
  rewrite length_app, step_length. destruct (fireCannon g); cbn; lia.
Qed.

Section PollFacts.
Context {ops : FloatOps}.

Lemma key_callback_fields (key : Key) (action : Action) (g : Globals) :
  key_callback key action g =
    mkGlobals (cannonAngle g) (cannonPower g) (cannonPosition g) (projectiles g)
      (lastFrameTime g)
      (fireCannon g || is_space_press (key, action))
      (shouldClose g || is_escape_press (key, action)).
Proof.
  destruct g as [a w c ps l f sc].
  destruct key, action; cbn; rewrite ?orb_false_r, ?orb_true_r; reflexivity.
Qed.

Lemma pollEvents_fields (events : list (Key * Action)) :
  forall g : Globals,
    pollEvents events g =
      mkGlobals (cannonAngle g) (cannonPower g) (cannonPosition g) (projectiles g)
        (lastFrameTime g)
        (fireCannon g || existsb is_space_press events)
        (shouldClose g || existsb is_escape_press events).
Proof.
  induction events as [|[key action] events IH]; intros g.
  - destruct g. cbn. now rewrite !orb_false_r.
  - change (pollEvents ((key, action) :: events) g)
      with (pollEvents events (key_callback key action g)).
    rewrite IH, key_callback_fields. cbn [existsb cannonAngle cannonPower cannonPosition
      projectiles lastFrameTime fireCannon shouldClose].
    now rewrite !orb_assoc.
Qed.
End PollFacts.

(** X3.  Key events are not queued: however many events [glfwPollEvents]
    delivers, in every arithmetic, afterwards [fireCannon] is set exactly
    when it was set before or one of them is SPACE pressed, and
    [shouldClose] exactly when it was set before or one of them is ESCAPE
    pressed; releases, repeats and other keys change nothing, no event
    clears a flag, and the aim, the clock and the collection are left as
    they are.  Several presses of SPACE between two turns fire one shot. *)
Theorem pollEvents_sets_flags_only :
  forall (ops : FloatOps) (events : list (Key * Action)) (g : Globals),
    pollEvents events g =
      mkGlobals (cannonAngle g) (cannonPower g) (cannonPosition g) (projectiles g)
        (lastFrameTime g)
        (fireCannon g || existsb is_space_press events)
        (shouldClose g || existsb is_escape_press events).
Proof.
  intros ops events g. apply pollEvents_fields.
Qed.

(** X4.  [prune] and the update loop act on each element by itself, in every
    arithmetic: both distribute over concatenation, the loop keeps the
    length, [prune] never lengthens, pruning twice is pruning once, and a
    collection of live projectiles is left as it is by [prune]. *)
Theorem prune_and_step_elementwise :
  forall (ops : FloatOps) (deltaTime : float) (a b : list Projectile),
    prune (prune a) = prune a
    /\ prune (a ++ b) = prune a ++ prune b
    /\ step deltaTime (a ++ b) = step deltaTime a ++ step deltaTime b
    /\ length (step deltaTime a) = length a
    /\ (length (prune a) <= length a)%nat
    /\ forall p, In p (prune a) -> In p a.
Proof.
  intros ops deltaTime a b. repeat split.
  - apply prune_fixed, prune_live.
  - apply prune_app.
  - apply step_app.
  - apply step_length.
  - apply filter_length_le.
  - intros p Hp. now apply prune_In in Hp.
Qed.

(** X5.  What one call of [update] can do to a projectile, in every
    arithmetic.  [timeAlive] grows by [deltaTime], whatever the collisions.
    Each coordinate ends at its integrated value or exactly on its boundary
    ([radius] for [y], [800 - radius] for [x]): there is no other clamp, in
    particular none on the left or at the top.  The horizontal velocity is
    only ever multiplied by 0.5 (ground), by -0.7 (wall), or by both; the
    vertical velocity after gravity is kept, halved, or halved and
    multiplied by -0.7. *)
Theorem update_moves_to_integrated_or_boundary :
  forall (ops : FloatOps) (deltaTime : float) (p : Projectile),
    let vx := glm.x (velocity p) in
    let vy := (glm.y (velocity p) - flit 9.81 * deltaTime)%fl in
    let p' := update deltaTime p in
    timeAlive p' = (timeAlive p + deltaTime)%fl
    /\ (glm.y (position p') = (glm.y (position p) + vy * deltaTime)%fl
        \/ glm.y (position p') = radius p)
    /\ (glm.x (position p') = (glm.x (position p) + vx * deltaTime)%fl
        \/ glm.x (position p') = (flit 800 - radius p)%fl)
    /\ (glm.x (velocity p') = vx
        \/ glm.x (velocity p') = (vx * flit 0.5)%fl
        \/ glm.x (velocity p') = (vx * - flit 0.7)%fl
        \/ glm.x (velocity p') = (vx * flit 0.5 * - flit 0.7)%fl)
    /\ (glm.y (velocity p') = vy
        \/ glm.y (velocity p') = (vy * flit 0.5)%fl
        \/ glm.y (velocity p') = (- (vy * flit 0.5) * flit 0.7)%fl).
Proof.
  intros ops deltaTime p vx vy p'. subst p'. rewrite update_unfold.
  set (q := integrated deltaTime p).
  destruct (fle (glm.y (position q)) (radius q)) eqn:Hg.
  - destruct (flt (glm.length (glm.scale (velocity q) (flit 0.5))) (flit 1.0)) eqn:Hs.
    + rewrite (ground_collision_settle q Hg Hs).
      match goal with |- context [wall_collision ?r] => set (q' := r) end.
      destruct (fle (of_int WINDOW_WIDTH - radius q')%fl (glm.x (position q'))) eqn:Hw.
      * rewrite (wall_collision_hit q' Hw). cbn. auto 10.
      * rewrite (wall_collision_miss q' Hw). cbn. auto 10.
    + rewrite (ground_collision_bounce q Hg Hs).
      match goal with |- context [wall_collision ?r] => set (q' := r) end.
      destruct (fle (of_int WINDOW_WIDTH - radius q')%fl (glm.x (position q'))) eqn:Hw.
      * rewrite (wall_collision_hit q' Hw). cbn. auto 10.
      * rewrite (wall_collision_miss q' Hw). cbn. auto 10.
  - rewrite (ground_collision_miss q Hg).
    destruct (fle (of_int WINDOW_WIDTH - radius q)%fl (glm.x (position q))) eqn:Hw.
    + rewrite (wall_collision_hit q Hw). cbn. auto 10.
    + rewrite (wall_collision_miss q Hw). cbn. auto 10.
Qed.

(** ** What holds all along a run *)

Section RunFacts.
Context {ops : FloatOps} {libm : cmath.Libm ops}.
Local Open Scope fl_scope.

(** Every projectile stored after a turn is the [update] of an active one
    that was stored before the turn or fired in it. *)
Lemma frame_survivor (t : float) (kb : Keyboard) (g : Globals) (p' : Projectile) :
  In p' (projectiles (frame t kb g)) ->
  live p'
  /\ exists p, p' = update (t - lastFrameTime g) p
               /\ active p = true
               /\ (In p (projectiles g)
                   \/ (fireCannon g = true /\ p = fired (processInput kb g))).
Proof.
  rewrite frame_unfold. cbn [projectiles]. intros Hin.
  assert (Hl : live p').
  { revert p' Hin. apply Forall_forall, prune_live. }
  split; [exact Hl|].
  apply prune_In in Hin as [Hin _]. unfold step in Hin.
  apply in_map_iff in Hin as (p & Hp & Hin).
  destruct (active p) eqn:Ha.
  - exists p. split; [now symmetry|]. split; [exact Ha|].
    apply in_app_or in Hin as [Hin|Hin]; [now left|right].
    destruct (fireCannon g); [|contradiction].
    destruct Hin as [<-|[]]. now split.
  - subst p'. destruct Hl as [Hl _]. congruence.
Qed.

Lemma frame_fires_after_input_aim (t : float) (kb : Keyboard) (g : Globals) :
  cannonAngle (frame t kb g) = cannonAngle (processInput kb g)
  /\ cannonPower (frame t kb g) = cannonPower (processInput kb g).
Proof. rewrite frame_unfold. now split. Qed.

Lemma main_loop_invariant (Inv : Globals -> Prop) :
  (forall i g, Inv g -> Inv (fst (turn i g))) ->
  forall turns g, Inv g -> Inv (fst (main_loop turns g)).
Proof.
  intros Hturn. induction turns as [|i turns IH]; intros g Hg; [exact Hg|].
  cbn [main_loop]. destruct (shouldClose g); [exact Hg|].
  specialize (Hturn i g Hg). destruct (turn i g) as [g1 calls1]. cbn [fst] in Hturn.
  specialize (IH g1 Hturn). destruct (main_loop turns g1) as [g2 calls2].
  exact IH.
Qed.
End RunFacts.

Section IdealRun.
Local Open Scope R_scope.

Lemma ideal_adjusts_range (l : list Adjust) (g : @Globals ideal) :
  0 <= cannonAngle g <= 90 /\ 10 <= cannonPower g <= 100 ->
  0 <= cannonAngle (adjusts l g) <= 90 /\ 10 <= cannonPower (adjusts l g) <= 100.
Proof.
  apply (@adjusts_ok ideal (fun a => 0 <= a <= 90) (fun w => 10 <= w <= 100)).
  - intros a Ha. cbn. unfold Q2R; cbn.
    replace (10 * / 10) with 1 by lra. replace (900 * / 10) with 90 by lra.
    apply ideal_clamp_up; lra.
  - intros a Ha. cbn. unfold Q2R; cbn.
    replace (10 * / 10) with 1 by lra. replace (0 * / 10) with 0 by lra.
    apply ideal_clamp_down; lra.
  - intros w Hw. cbn. unfold Q2R; cbn.
    replace (10 * / 10) with 1 by lra. replace (1000 * / 10) with 100 by lra.
    apply ideal_clamp_up; lra.
  - intros w Hw. cbn. unfold Q2R; cbn.
    replace (10 * / 10) with 1 by lra. replace (100 * / 10) with 10 by lra.
    apply ideal_clamp_down; lra.
Qed.

Lemma ideal_update_keeps_inside (deltaTime : @float ideal) (p : @Projectile ideal) :
  radius p = 5 ->
  radius (update deltaTime p) = 5
  /\ glm.y (position (update deltaTime p)) >= 5
  /\ glm.x (position (update deltaTime p)) <= 795.
Proof.
  intros Hr.
  assert (Hr' : radius (update deltaTime p) = 5) by now rewrite update_radius.
  split; [exact Hr'|]. split.
  - destruct (update_y_cases deltaTime p) as [H|H]; cbv zeta in H; rewrite Hr' in H.
    + rewrite H. lra.
    + apply Rleb_false in H. lra.
  - destruct (update_x_cases deltaTime p) as [H|H]; cbv zeta in H; rewrite Hr' in H.
    + rewrite H. cbn. unfold Q2R. cbn. lra.
    + apply Rleb_false in H. cbn in H. unfold Q2R in H. cbn in H. lra.
Qed.

Lemma ideal_frame_invariant (t : @float ideal) (kb : Keyboard) (g : @Globals ideal) :
  ideal_invariant g -> ideal_invariant (@frame ideal ideal_libm t kb g).
Proof.
  intros (Ha & Hw & Hc & Hps). unfold ideal_invariant.
  destruct (@frame_fires_after_input_aim ideal ideal_libm t kb g) as [HA HW].
  rewrite HA, HW, !processInput_adjusts.
  destruct (ideal_adjusts_range (pressed kb) g (conj Ha Hw)) as [Ha' Hw'].
  split; [exact Ha'|]. split; [exact Hw'|]. split.
  - rewrite frame_unfold. exact Hc.
  - apply Forall_forall. intros p' Hin.
    apply frame_survivor in Hin as [[Hact Ht] (p & -> & Hp & Hfrom)].
    assert (Hr : radius p = 5).
    { destruct Hfrom as [Hin|[_ ->]].
      - now apply (proj1 (Forall_forall _ _) Hps p Hin).
      - cbn. unfold Q2R. cbn. lra. }
    destruct (ideal_update_keeps_inside (t - lastFrameTime g)%fl p Hr) as (H1 & H2 & H3).
    split; [exact Hact|]. split; [exact H1|]. split; [|now split].
    apply Rltb_false in Ht.
    assert (H10 : @flit ideal 10.0 = 10) by (cbn; unfold Q2R; cbn; lra).
    rewrite H10 in Ht. exact Ht.
Qed.
End IdealRun.

Section Binary32Run.
Context {libm : cmath.Libm binary32}.

Lemma b32_update_keeps_inside (deltaTime : @float binary32) (p : @Projectile binary32) :
  radius p = flit 5.0 ->
  radius (update deltaTime p) = flit 5.0
  /\ (glm.y (position (update deltaTime p)) <? flit 5.0)%fl = false
  /\ (glm.x (position (update deltaTime p)) >? flit 795.0)%fl = false.
Proof.
  intros Hr.
  assert (Hr' : radius (update deltaTime p) = flit 5.0) by now rewrite update_radius.
  split; [exact Hr'|]. split.
  - destruct (update_y_cases deltaTime p) as [H|H]; cbv zeta in H; rewrite Hr' in H.
    + rewrite H. apply SFltb_irrefl.
    + now apply SFleb_false_SFltb.
  - destruct (update_x_cases deltaTime p) as [H|H]; cbv zeta in H; rewrite Hr' in H;
      change (@flit binary32 800 - flit 5.0)%fl with (@flit binary32 795.0) in H.
    + rewrite H. apply SFltb_irrefl.
    + now apply SFleb_false_SFltb.
Qed.

Lemma b32_frame_invariant (t : @float binary32) (kb : Keyboard) (g : @Globals binary32) :
  binary32_invariant g -> binary32_invariant (frame t kb g).
Proof.
  intros (Ha & Hw & Hc & Hps). unfold binary32_invariant.
  destruct (@frame_fires_after_input_aim binary32 libm t kb g) as [HA HW].
  rewrite HA, HW, !processInput_adjusts.
  destruct (@adjusts_ok binary32 (fun a => b32.mem a angles = true)
              (fun w => b32.mem w powers = true)
              b32_angle_up b32_angle_down b32_power_up b32_power_down
              (pressed kb) g (conj Ha Hw)) as [Ha' Hw'].
  split; [exact Ha'|]. split; [exact Hw'|]. split.
  - rewrite frame_unfold. exact Hc.
  - apply Forall_forall. intros p' Hin.
    apply frame_survivor in Hin as [[Hact Ht] (p & -> & Hp & Hfrom)].
    assert (Hr : radius p = flit 5.0).
    { destruct Hfrom as [Hin|[_ ->]].
      - now apply (proj1 (Forall_forall _ _) Hps p Hin).
      - reflexivity. }
    destruct (b32_update_keeps_inside (t - lastFrameTime g)%fl p Hr) as (H1 & H2 & H3).
    repeat split; assumption.
Qed.
End Binary32Run.

Section RunInvariant.
Context {ops : FloatOps} {libm : cmath.Libm ops}.

(** An invariant of the turns that does not read the two flags holds at
    the exit of [main]. *)
Lemma main_invariant (Inv : Globals -> Prop) :
  Inv initial ->
  (forall t kb g, Inv g -> Inv (frame t kb g)) ->
  (forall events g, Inv g -> Inv (pollEvents events g)) ->
  forall platform turns, Inv (snd (fst (main platform turns))).
Proof.
  intros H0 Hframe Hpoll platform turns. unfold main.
  destruct (glfwInit_ok platform); [|exact H0].
  destruct (glfwCreateWindow_ok platform); [|exact H0].
  destruct (glewInit_ok platform); [|exact H0]. cbn [negb].
  assert (H : Inv (fst (main_loop turns initial))).
  { apply main_loop_invariant; [|exact H0].
    intros i g Hg. unfold turn. cbn [fst]. now apply Hpoll, Hframe. }
  destruct (main_loop turns initial) as [g calls]. exact H.
Qed.
End RunInvariant.

(** X6.  Over the reals, whatever the start-up calls answer, whatever the
    clock readings, key states and key events of the turns, the globals at
    the exit of [main] (so after every turn) satisfy: the angle is in
    [0, 90] and the power in [10, 100]; the cannon is at (50, 50); and every
    stored projectile is active, has radius 5, [timeAlive <= 10],
    [position.y >= 5] and [position.x <= 795]. *)
Theorem ideal_run_invariant :
  forall (platform : Platform) (turns : list (@Turn ideal)),
    ideal_invariant (snd (fst (@main ideal ideal_libm platform turns))).
Proof.
  apply (@main_invariant ideal ideal_libm ideal_invariant).
  - unfold ideal_invariant. cbn. unfold Q2R. cbn.
    repeat split; try lra; [f_equal; lra | constructor].
  - intros t kb g. apply ideal_frame_invariant.
  - intros events g Hg. rewrite pollEvents_fields. exact Hg.
Qed.

(** X7.  The same in binary32, for every [<cmath>]: at the exit of [main]
    the angle is one of the integers 0..90 and the power one of 10..100
    (exactly represented), the cannon is at (50, 50), and every stored
    projectile is active, has radius exactly 5.0f, and none of the tests
    [timeAlive > 10.0], [position.y < 5.0], [position.x > 795.0] succeeds
    on it. *)
Theorem binary32_run_invariant :
  forall (libm : cmath.Libm binary32) (platform : Platform) (turns : list (@Turn binary32)),
    binary32_invariant (snd (fst (@main binary32 libm platform turns))).
Proof.
  intros libm. apply (@main_invariant binary32 libm binary32_invariant).
  - unfold binary32_invariant. repeat split; try reflexivity. constructor.
  - intros t kb g. apply b32_frame_invariant.
  - intros events g Hg. rewrite pollEvents_fields. exact Hg.
Qed.

(** ** Speeds, over the reals *)

Section IdealSpeed.
Local Open Scope R_scope.

Lemma ideal_length_le (v w : @glm.vec2 ideal) (c : R) :
  0 <= c ->
  glm.x v * glm.x v + glm.y v * glm.y v
    <= c * c * (glm.x w * glm.x w + glm.y w * glm.y w) ->
  glm.length v <= c * glm.length w.
Proof.
  intros Hc H.
  destruct (ideal_length_sqr v) as [Hv0 Hv], (ideal_length_sqr w) as [Hw0 Hw].
  rewrite <- Hv, <- Hw in H.
  destruct (Rle_lt_dec (glm.length v) (c * glm.length w)) as [Hle|Hlt]; [exact Hle|].
  assert (0 <= c * glm.length w) by nra.
  nra.
Qed.

Lemma ideal_ground_speed (q : @Projectile ideal) :
  glm.y (position q) <= radius q ->
  glm.length (velocity (ground_collision q)) <= 0.5 * glm.length (velocity q).
Proof.
  intros Hc. apply Rleb_true in Hc.
  destruct (Rltb (glm.length (glm.scale (velocity q) (@flit ideal 0.5))) (@flit ideal 1.0))
    eqn:Hs.
  - rewrite (@ground_collision_settle ideal q Hc Hs). cbn [velocity].
    apply ideal_length_le; [lra|]. cbn. unfold Q2R. cbn. nra.
  - rewrite (@ground_collision_bounce ideal q Hc Hs). cbn [velocity].
    apply ideal_length_le; [lra|]. cbn. unfold Q2R. cbn. nra.
Qed.

Lemma ideal_ground_speed_le (q : @Projectile ideal) :
  glm.length (velocity (ground_collision q)) <= glm.length (velocity q).
Proof.
  destruct (Rle_lt_dec (glm.y (position q)) (radius q)) as [Hc|Hc].
  - pose proof (ideal_ground_speed q Hc).
    destruct (ideal_length_sqr (velocity q)). lra.
  - rewrite ground_collision_miss; [lra|]. now apply Rleb_false.
Qed.

Lemma ideal_wall_speed_le (q : @Projectile ideal) :
  glm.length (velocity (wall_collision q)) <= glm.length (velocity q).
Proof.
  destruct (Rleb (@of_int ideal WINDOW_WIDTH - radius q) (glm.x (position q))) eqn:Hw.
  - rewrite (@wall_collision_hit ideal q Hw). cbn [velocity].
    replace (glm.length (velocity q)) with (1 * glm.length (velocity q)) by lra.
    apply ideal_length_le; [lra|]. cbn. unfold Q2R. cbn. nra.
  - rewrite (@wall_collision_miss ideal q Hw). lra.
Qed.
End IdealSpeed.

(** X8.  Collisions never add speed, over the reals: after [update] the
    speed is at most the speed after gravity was applied, and at most half
    of it when the ground block ran (the position after integration had
    [y <= radius]). *)
Theorem collisions_never_add_speed :
  forall (deltaTime : @float ideal) (p : @Projectile ideal),
    let q := integrated deltaTime p in
    (glm.length (velocity (update deltaTime p)) <= glm.length (velocity q))%R
    /\ ((glm.y (position q) <= radius q)%R ->
        (glm.length (velocity (update deltaTime p)) <= 0.5 * glm.length (velocity q))%R).
Proof.
  intros deltaTime p q. rewrite update_unfold. fold q. split.
  - eapply Rle_trans; [apply ideal_wall_speed_le | apply ideal_ground_speed_le].
  - intros Hc.
    eapply Rle_trans; [apply ideal_wall_speed_le | now apply ideal_ground_speed].
Qed.

(** The corner shot loses at least half of its speed in its bounce. *)
Lemma collisions_never_add_speed_witness :
  (glm.length (velocity (@update ideal dt64 corner_shot))
   <= 0.5 * glm.length (velocity (@integrated ideal dt64 corner_shot)))%R.
Proof.
  apply (proj2 (collisions_never_add_speed dt64 corner_shot)).
  cbn. unfold Q2R. cbn. lra.
Defined.

(** X9.  The launch, over the reals: whatever the angle, the projectile
    leaves at distance 40 from the cannon and its speed is the absolute
    value of the power (so the power itself, which a run keeps in
    [10, 100]); with the cannon at (50, 50) it spawns inside
    [10, 90] x [10, 90], above the ground line [y = radius] and left of the
    wall line [x = 800 - radius]. *)
Theorem launch_geometry :
  forall g : @Globals ideal,
    let p := @fired ideal ideal_libm g in
    let dx := (glm.x (position p) - glm.x (cannonPosition g))%R in
    let dy := (glm.y (position p) - glm.y (cannonPosition g))%R in
    sqrt (dx * dx + dy * dy) = 40%R
    /\ glm.length (velocity p) = Rabs (cannonPower g)
    /\ (cannonPosition g = @glm.Vec2 ideal 50%R 50%R ->
        (10 <= glm.x (position p) <= 90)%R /\ (10 <= glm.y (position p) <= 90)%R
        /\ (glm.y (position p) > radius p)%R
        /\ (glm.x (position p) < 800 - radius p)%R).
Proof.
  intros g p dx dy. subst p dx dy. unfold fired, new_Projectile, glm.length, glm.dot.
  cbn. unfold Q2R. cbn.
  set (r := (cannonAngle g * _ / _)%R).
  pose proof (sin2_cos2 r) as Hsc. unfold Rsqr in Hsc.
  pose proof (COS_bound r) as [Hc1 Hc2].
  pose proof (SIN_bound r) as [Hs1 Hs2].
  split; [|split].
  - replace ((glm.x (cannonPosition g) + 400 * / 10 * cos r - glm.x (cannonPosition g)) *
             (glm.x (cannonPosition g) + 400 * / 10 * cos r - glm.x (cannonPosition g)) +
             (glm.y (cannonPosition g) + 400 * / 10 * sin r - glm.y (cannonPosition g)) *
             (glm.y (cannonPosition g) + 400 * / 10 * sin r - glm.y (cannonPosition g)))%R
      with (Rsqr 40) by (unfold Rsqr; nra).
    rewrite sqrt_Rsqr; lra.
  - replace (cannonPower g * cos r * (cannonPower g * cos r) +
             cannonPower g * sin r * (cannonPower g * sin r))%R
      with (Rsqr (cannonPower g)) by (unfold Rsqr; nra).
    apply sqrt_Rsqr_abs.
  - intros ->. cbn. repeat split; lra.
Qed.

(** The launch of the initial cannon. *)
Lemma launch_geometry_witness :
  let p := @fired ideal ideal_libm initial in
  (10 <= glm.x (position p) <= 90)%R /\ (10 <= glm.y (position p) <= 90)%R
  /\ (glm.y (position p) > radius p)%R
  /\ (glm.x (position p) < 800 - radius p)%R.
Proof.
  cbv zeta. apply (proj2 (proj2 (launch_geometry initial))).
  cbn. unfold Q2R. cbn. f_equal; lra.
Defined.

(** ** Ageing *)

Section Ageing.
Context {ops : FloatOps}.



End Ageing.

Section IdealAgeing.
Local Open Scope R_scope.

End IdealAgeing.



(** ** The aim is a whole number *)

(** A run of adjustments computes the integer clamps, in any arithmetic
    whose four clamped assignments are exact on the integers of the two
    ranges. *)
Section AimRefinement.
Context {ops : FloatOps}.
Local Open Scope fl_scope.

Hypothesis angle_up_exact : forall k, (0 <= k <= 90)%Z ->
  std.min (of_int k + flit 1.0) (flit 90.0) = of_int (Z.min (k + 1) 90).
Hypothesis angle_down_exact : forall k, (0 <= k <= 90)%Z ->
  std.max (of_int k - flit 1.0) (flit 0.0) = of_int (Z.max (k - 1) 0).
Hypothesis power_up_exact : forall k, (10 <= k <= 100)%Z ->
  std.min (of_int k + flit 1.0) (flit 100.0) = of_int (Z.min (k + 1) 100).
Hypothesis power_down_exact : forall k, (10 <= k <= 100)%Z ->
  std.max (of_int k - flit 1.0) (flit 10.0) = of_int (Z.max (k - 1) 10).

Lemma adjust_refines (a : Adjust) (g : Globals) (angle power : Z) :
  (0 <= angle <= 90)%Z -> (10 <= power <= 100)%Z ->
  cannonAngle g = of_int angle -> cannonPower g = of_int power ->
  (0 <= fst (adjustZ a (angle, power)) <= 90)%Z
  /\ (10 <= snd (adjustZ a (angle, power)) <= 100)%Z
  /\ cannonAngle (adjust a g) = of_int (fst (adjustZ a (angle, power)))
  /\ cannonPower (adjust a g) = of_int (snd (adjustZ a (angle, power))).
Proof.
  intros Ha Hw HA HW.
  destruct a; cbn [adjustZ fst snd adjust angle_up angle_down power_up power_down
                   set_cannonAngle set_cannonPower cannonAngle cannonPower];
    rewrite ?HA, ?HW, ?angle_up_exact, ?angle_down_exact, ?power_up_exact,
      ?power_down_exact by assumption;
    repeat split; try reflexivity; lia.
Qed.

Lemma adjusts_refine (l : list Adjust) :
  forall (g : Globals) (angle power : Z),
    (0 <= angle <= 90)%Z -> (10 <= power <= 100)%Z ->
    cannonAngle g = of_int angle -> cannonPower g = of_int power ->
    (0 <= fst (adjustsZ l (angle, power)) <= 90)%Z
    /\ (10 <= snd (adjustsZ l (angle, power)) <= 100)%Z
    /\ cannonAngle (adjusts l g) = of_int (fst (adjustsZ l (angle, power)))
    /\ cannonPower (adjusts l g) = of_int (snd (adjustsZ l (angle, power))).
Proof.
  induction l as [|a l IH]; intros g angle power Ha Hw HA HW.
  - cbn. auto.
  - change (adjustsZ (a :: l) (angle, power)) with (adjustsZ l (adjustZ a (angle, power))).
    change (adjusts (a :: l) g) with (adjusts l (adjust a g)).
    destruct (adjust_refines a g Ha Hw HA HW) as (Ha' & Hw' & HA' & HW').
    destruct (adjustZ a (angle, power)) as [angle' power']. now apply IH.
Qed.
End AimRefinement.

Section Binary32Integers.
Lemma Z_range_forallb (P : Z -> bool) (lo : Z) (n : nat) :
  forallb (fun i => P (lo + Z.of_nat i)%Z) (seq 0%nat n) = true ->
  forall k, (lo <= k < lo + Z.of_nat n)%Z -> P k = true.
Proof.
  intros Hall k Hk.
  replace k with (lo + Z.of_nat (Z.to_nat (k - lo)))%Z by lia.
  apply (proj1 (forallb_forall _ _) Hall). apply in_seq. lia.
Qed.

Lemma b32_angle_up_exact (k : Z) : (0 <= k <= 90)%Z ->
  @std.min binary32 (of_int k + flit 1.0)%fl (flit 90.0) = of_int (Z.min (k + 1) 90).
Proof.
  intros Hk. apply b32_eqb_eq.
  apply (@Z_range_forallb
           (fun k => b32.eqb (@std.min binary32 (of_int k + flit 1.0)%fl (flit 90.0))
                             (@of_int binary32 (Z.min (k + 1) 90))) 0%Z 91%nat);
    [vm_compute; reflexivity | lia].
Qed.

Lemma b32_angle_down_exact (k : Z) : (0 <= k <= 90)%Z ->
  @std.max binary32 (of_int k - flit 1.0)%fl (flit 0.0) = of_int (Z.max (k - 1) 0).
Proof.
  intros Hk. apply b32_eqb_eq.
  apply (@Z_range_forallb
           (fun k => b32.eqb (@std.max binary32 (of_int k - flit 1.0)%fl (flit 0.0))
                             (@of_int binary32 (Z.max (k - 1) 0))) 0%Z 91%nat);
    [vm_compute; reflexivity | lia].
Qed.

Lemma b32_power_up_exact (k : Z) : (10 <= k <= 100)%Z ->
  @std.min binary32 (of_int k + flit 1.0)%fl (flit 100.0) = of_int (Z.min (k + 1) 100).
Proof.
  intros Hk. apply b32_eqb_eq.
  apply (@Z_range_forallb
           (fun k => b32.eqb (@std.min binary32 (of_int k + flit 1.0)%fl (flit 100.0))
                             (@of_int binary32 (Z.min (k + 1) 100))) 10%Z 91%nat);
    [vm_compute; reflexivity | lia].
Qed.

Lemma b32_power_down_exact (k : Z) : (10 <= k <= 100)%Z ->
  @std.max binary32 (of_int k - flit 1.0)%fl (flit 10.0) = of_int (Z.max (k - 1) 10).
Proof.
  intros Hk. apply b32_eqb_eq.
  apply (@Z_range_forallb
           (fun k => b32.eqb (@std.max binary32 (of_int k - flit 1.0)%fl (flit 10.0))
                             (@of_int binary32 (Z.max (k - 1) 10))) 10%Z 91%nat);
    [vm_compute; reflexivity | lia].
Qed.
End Binary32Integers.

Section IdealIntegers.
Local Open Scope R_scope.

Lemma ideal_of_int (k : Z) : @of_int ideal k = IZR k.
Proof. unfold of_int. cbn. unfold Q2R. cbn. lra. Qed.

Lemma ideal_min_exact (k hi : Z) :
  @std.min ideal (IZR k + 1) (IZR hi) = IZR (Z.min (k + 1) hi).
Proof.
  rewrite ideal_min_spec. unfold Rmin.
  destruct (Rle_dec (IZR k + 1) (IZR hi)) as [H|H].
  - rewrite Z.min_l; [now rewrite plus_IZR|].
    apply le_IZR. rewrite plus_IZR. exact H.
  - rewrite Z.min_r; [reflexivity|].
    apply Z.lt_le_incl, lt_IZR. rewrite plus_IZR. lra.
Qed.

Lemma ideal_max_exact (k lo : Z) :
  @std.max ideal (IZR k - 1) (IZR lo) = IZR (Z.max (k - 1) lo).
Proof.
  rewrite ideal_max_spec. unfold Rmax.
  destruct (Rle_dec (IZR k - 1) (IZR lo)) as [H|H].
  - rewrite Z.max_r; [reflexivity|].
    apply le_IZR. rewrite minus_IZR. exact H.
  - rewrite Z.max_l; [now rewrite minus_IZR|].
    apply Z.lt_le_incl, lt_IZR. rewrite minus_IZR. lra.
Qed.

Lemma ideal_lit_int (n : Z) : Q2R (n * 10 # 10) = IZR n.
Proof. unfold Q2R. cbn. rewrite mult_IZR. lra. Qed.
End IdealIntegers.

Section AimInstances.
Lemma b32_adjusts_refine (l : list Adjust) (g : @Globals binary32) (angle power : Z) :
  (0 <= angle <= 90)%Z -> (10 <= power <= 100)%Z ->
  cannonAngle g = of_int angle -> cannonPower g = of_int power ->
  (0 <= fst (adjustsZ l (angle, power)) <= 90)%Z
  /\ (10 <= snd (adjustsZ l (angle, power)) <= 100)%Z
  /\ cannonAngle (adjusts l g) = of_int (fst (adjustsZ l (angle, power)))
  /\ cannonPower (adjusts l g) = of_int (snd (adjustsZ l (angle, power))).
Proof.
  apply (@adjusts_refine binary32 b32_angle_up_exact b32_angle_down_exact
           b32_power_up_exact b32_power_down_exact).
Qed.

Lemma ideal_adjusts_refine (l : list Adjust) (g : @Globals ideal) (angle power : Z) :
  (0 <= angle <= 90)%Z -> (10 <= power <= 100)%Z ->
  cannonAngle g = of_int angle -> cannonPower g = of_int power ->
  (0 <= fst (adjustsZ l (angle, power)) <= 90)%Z
  /\ (10 <= snd (adjustsZ l (angle, power)) <= 100)%Z
  /\ cannonAngle (adjusts l g) = of_int (fst (adjustsZ l (angle, power)))
  /\ cannonPower (adjusts l g) = of_int (snd (adjustsZ l (angle, power))).
Proof.
  assert (L1 : @flit ideal 1.0 = 1%R) by (cbn; unfold Q2R; cbn; lra).
  assert (L0 : @flit ideal 0.0 = IZR 0) by (cbn; unfold Q2R; cbn; lra).
  assert (L10 : @flit ideal 10.0 = IZR 10) by (cbn; unfold Q2R; cbn; lra).
  assert (L90 : @flit ideal 90.0 = IZR 90) by (cbn; unfold Q2R; cbn; lra).
  assert (L100 : @flit ideal 100.0 = IZR 100) by (cbn; unfold Q2R; cbn; lra).
  apply (@adjusts_refine ideal).
  - intros k _. rewrite !ideal_of_int, L1, L90. apply ideal_min_exact.
  - intros k _. rewrite !ideal_of_int, L1, L0. apply ideal_max_exact.
  - intros k _. rewrite !ideal_of_int, L1, L100. apply ideal_min_exact.
  - intros k _. rewrite !ideal_of_int, L1, L10. apply ideal_max_exact.
Qed.

Lemma opposite_keys_Z (kb : Keyboard) (angle power : Z) :
  (0 <= angle <= 90)%Z -> (10 <= power <= 100)%Z ->
  (KEY_UP kb = true -> KEY_DOWN kb = true ->
   fst (adjustsZ (pressed kb) (angle, power)) = Z.min angle 89)
  /\ (KEY_RIGHT kb = true -> KEY_LEFT kb = true ->
      snd (adjustsZ (pressed kb) (angle, power)) = Z.min power 99).
Proof.
  intros Ha Hw. unfold pressed.
  destruct (KEY_UP kb), (KEY_DOWN kb), (KEY_RIGHT kb), (KEY_LEFT kb);
    cbn; split; intros; try discriminate; lia.
Qed.
End AimInstances.

(** X11.  In both arithmetics the aim is always a whole number and the
    program computes exactly the integer clamps: after any run of
    adjustments (so after any run of [processInput] calls) from the
    defaults, the angle is the [float] of the integer obtained by running
    [+1] clamped by [Z.min] with 90 and [-1] clamped by [Z.max] with 0 from
    45, and the power likewise from 50 with 100 and 10.  No rounding ever
    enters the aim. *)
Theorem aim_computes_integer_clamps :
  forall kbs : list Keyboard,
    let s := adjustsZ (flat_map pressed kbs) (45, 50)%Z in
    ((0 <= fst s <= 90)%Z /\ (10 <= snd s <= 100)%Z)
    /\ (cannonAngle (processInputs kbs (@initial binary32)) = of_int (fst s)
        /\ cannonPower (processInputs kbs (@initial binary32)) = of_int (snd s))
    /\ (cannonAngle (processInputs kbs (@initial ideal)) = IZR (fst s)
        /\ cannonPower (processInputs kbs (@initial ideal)) = IZR (snd s)).
Proof.
  intros kbs s. subst s. rewrite !processInputs_adjusts.
  destruct (@b32_adjusts_refine (flat_map pressed kbs) (@initial binary32) 45 50)
    as (Ha & Hw & HA & HW); try lia; try reflexivity.
  destruct (@ideal_adjusts_refine (flat_map pressed kbs) (@initial ideal) 45 50)
    as (_ & _ & HA' & HW'); try lia;
    try (rewrite ideal_of_int; cbn; unfold Q2R; cbn; lra).
  rewrite ideal_of_int in HA', HW'.
  repeat split; try assumption; lia.
Qed.

(** X12.  Holding two opposite keys is not neutral at the upper bound.
    [processInput] runs the [+1] assignment before the [-1] one, so with UP
    and DOWN both held an angle of [k] degrees ([0 <= k <= 90]) becomes
    [min (k, 89)]: unchanged below 90, but 90 drops to 89; with RIGHT and
    LEFT both held a power [w] ([10 <= w <= 100]) becomes [min (w, 99)].  In
    binary32 and over the reals. *)
Theorem opposite_keys_drop_the_upper_bound :
  forall (kb : Keyboard) (k w : Z),
    (0 <= k <= 90)%Z -> (10 <= w <= 100)%Z ->
    (forall g : @Globals binary32,
       cannonAngle g = of_int k -> cannonPower g = of_int w ->
       (KEY_UP kb = true -> KEY_DOWN kb = true ->
        cannonAngle (processInput kb g) = of_int (Z.min k 89))
       /\ (KEY_RIGHT kb = true -> KEY_LEFT kb = true ->
           cannonPower (processInput kb g) = of_int (Z.min w 99)))
    /\ (forall g : @Globals ideal,
          cannonAngle g = IZR k -> cannonPower g = IZR w ->
          (KEY_UP kb = true -> KEY_DOWN kb = true ->
           cannonAngle (processInput kb g) = IZR (Z.min k 89))
          /\ (KEY_RIGHT kb = true -> KEY_LEFT kb = true ->
              cannonPower (processInput kb g) = IZR (Z.min w 99))).
Proof.
  intros kb k w Hk Hw.
  destruct (@opposite_keys_Z kb k w Hk Hw) as [Hza Hzw]. split.
  - intros g HA HW. rewrite processInput_adjusts.
    destruct (@b32_adjusts_refine (pressed kb) g k w Hk Hw HA HW) as (_ & _ & HA' & HW').
    split; intros H1 H2; [rewrite HA', Hza | rewrite HW', Hzw]; auto.
  - intros g HA HW. rewrite processInput_adjusts.
    rewrite <- ideal_of_int in HA, HW.
    destruct (@ideal_adjusts_refine (pressed kb) g k w Hk Hw HA HW) as (_ & _ & HA' & HW').
    rewrite <- !ideal_of_int.
    split; intros H1 H2; [rewrite HA', Hza | rewrite HW', Hzw]; auto.
Qed.

(** All four keys held with the aim at its upper bounds, in binary32. *)
Lemma opposite_keys_drop_the_upper_bound_witness :
  let kb := Build_Keyboard true true true true in
  let g := set_cannonPower (flit 100.0) (set_cannonAngle (flit 90.0) (@initial binary32)) in
  cannonAngle (processInput kb g) = flit 89.0
  /\ cannonPower (processInput kb g) = flit 99.0.
Proof.
  cbv zeta.
  destruct (proj1 (@opposite_keys_drop_the_upper_bound
                     (Build_Keyboard true true true true) 90 100
                     ltac:(lia) ltac:(lia))
              (set_cannonPower (flit 100.0) (set_cannonAngle (flit 90.0) (@initial binary32)))
              eq_refl eq_refl) as [HA HW].
  split; [apply HA | apply HW]; reflexivity.
Defined.

(** ** The calls a run makes *)

Section CallFacts.
Context {ops : FloatOps} {libm : cmath.Libm ops}.

Lemma gl_exec_app (a b : list Call) (s : bool * nat) :
  gl_exec (a ++ b) s =
    match gl_exec a s with Some s' => gl_exec b s' | None => None end.
Proof.
  revert s. induction a as [|c a IH]; intros s; [reflexivity|].
  cbn [app gl_exec]. destruct (gl_step c s); [apply IH | reflexivity].
Qed.

Lemma gl_exec_rim (cx cy r : float) (depth : nat) :
  gl_exec (rim cx cy r) (true, depth) = Some (true, depth).
Proof.
  unfold rim. induction fan_steps as [|i l IH]; [reflexivity|]. exact IH.
Qed.

Lemma rim_length (cx cy r : float) : length (rim cx cy r) = 37%nat.
Proof. unfold rim. now rewrite length_map. Qed.

Lemma rim_vertices (cx cy r : float) : filter is_vertex (rim cx cy r) = rim cx cy r.
Proof.
  unfold rim. induction fan_steps as [|i l IH]; [reflexivity|].
  cbn [map filter is_vertex]. now rewrite IH.
Qed.

Lemma gl_exec_drawGround : gl_exec drawGround (false, 0%nat) = Some (false, 0%nat).
Proof. reflexivity. Qed.

Lemma gl_exec_drawCannon (g : Globals) :
  gl_exec (drawCannon g) (false, 0%nat) = Some (false, 0%nat).
Proof.
  unfold drawCannon. cbn [app gl_exec gl_step].
  now rewrite gl_exec_app, gl_exec_rim.
Qed.

Lemma gl_exec_drawProjectile (p : Projectile) :
  gl_exec (drawProjectile p) (false, 0%nat) = Some (false, 0%nat).
Proof.
  unfold drawProjectile. destruct (active p); [|reflexivity].
  cbn [app gl_exec gl_step]. now rewrite gl_exec_app, gl_exec_rim.
Qed.

Lemma gl_exec_drawProjectiles (g : Globals) :
  gl_exec (drawProjectiles g) (false, 0%nat) = Some (false, 0%nat).
Proof.
  unfold drawProjectiles. induction (projectiles g) as [|p ps IH]; [reflexivity|].
  cbn [flat_map]. now rewrite gl_exec_app, gl_exec_drawProjectile.
Qed.

Lemma gl_exec_render (g : Globals) :
  gl_exec (render g) (false, 0%nat) = Some (false, 0%nat).
Proof.
  unfold render. cbn [app gl_exec gl_step].
  now rewrite gl_exec_app, gl_exec_drawGround, gl_exec_app, gl_exec_drawCannon,
    gl_exec_drawProjectiles.
Qed.

Lemma drawProjectile_vertices (p : Projectile) :
  length (filter is_vertex (drawProjectile p)) = if active p then 38%nat else 0%nat.
Proof.
  unfold drawProjectile. destruct (active p); [|reflexivity].
  cbn [app filter is_vertex length]. rewrite filter_app, rim_vertices, length_app, rim_length.
  reflexivity.
Qed.

Lemma drawProjectiles_vertices (g : Globals) :
  length (filter is_vertex (drawProjectiles g))
  = (38 * length (filter active (projectiles g)))%nat.
Proof.
  unfold drawProjectiles. induction (projectiles g) as [|p ps IH]; [reflexivity|].
  cbn [flat_map filter]. rewrite filter_app, length_app, drawProjectile_vertices, IH.
  destruct (active p); cbn [length]; lia.
Qed.

Lemma gl_exec_turn (i : Turn) (g : Globals) :
  gl_exec (snd (turn i g)) (false, 0%nat) = Some (false, 0%nat).
Proof.
  unfold turn. cbn [snd app gl_exec gl_step].
  now rewrite gl_exec_app, gl_exec_render.
Qed.

Lemma gl_exec_main_loop (turns : list Turn) :
  forall g, gl_exec (snd (main_loop turns g)) (false, 0%nat) = Some (false, 0%nat).
Proof.
  induction turns as [|i turns IH]; intros g; [reflexivity|].
  cbn [main_loop]. destruct (shouldClose g); [reflexivity|].
  pose proof (gl_exec_turn i g) as Ht. destruct (turn i g) as [g1 calls1].
  specialize (IH g1). destruct (main_loop turns g1) as [g2 calls2].
  cbn [snd] in *. cbn [app gl_exec gl_step]. now rewrite gl_exec_app, Ht.
Qed.
End CallFacts.

(** X13.  The drawing code respects the bracket rules of immediate-mode
    OpenGL, in every arithmetic and for every state of the globals: in the
    calls of one rendering, and in the calls of a whole run of [main]
    whatever the start-up calls answer, every [glVertex2f] lies between a
    [glBegin] and its [glEnd], pairs are not nested, every other GL call
    lies outside the pairs, [glPopMatrix] never meets an empty stack, and at
    the end no pair is open and the stack is back at its depth.
    [drawProjectiles] emits 38 vertices (the centre and 37 rim points) for
    each active projectile and nothing for an inactive one. *)
Theorem drawing_is_well_bracketed :
  forall (ops : FloatOps) (libm : cmath.Libm ops)
         (g : Globals) (platform : Platform) (turns : list Turn),
    gl_exec (render g) (false, 0%nat) = Some (false, 0%nat)
    /\ gl_exec (snd (main platform turns)) (false, 0%nat) = Some (false, 0%nat)
    /\ length (filter is_vertex (drawProjectiles g))
       = (38 * length (filter active (projectiles g)))%nat.
Proof.
  intros ops libm g platform turns.
  split; [apply gl_exec_render|]. split; [|apply drawProjectiles_vertices].
  unfold main.
  destruct (glfwInit_ok platform); [|reflexivity].
  destruct (glfwCreateWindow_ok platform); [|reflexivity].
  destruct (glewInit_ok platform); [|reflexivity]. cbn [negb].
  pose proof (gl_exec_main_loop turns initial) as Hl.
  destruct (main_loop turns initial) as [g' calls]. cbn [snd] in *.
  cbn [app gl_exec gl_step windowHints setup].
  now rewrite gl_exec_app, Hl.
Qed.

Section MainFacts.
Context {ops : FloatOps} {libm : cmath.Libm ops}.

Lemma rim_turn_calls (cx cy r : float) : forallb turn_call (rim cx cy r) = true.
Proof. unfold rim. induction fan_steps as [|i l IH]; [reflexivity|]. exact IH. Qed.

Lemma render_turn_calls (g : Globals) : forallb turn_call (render g) = true.
Proof.
  unfold render, drawCannon, drawProjectiles.
  rewrite !forallb_app, rim_turn_calls. cbn.
  induction (projectiles g) as [|p ps IH]; [reflexivity|].
  cbn [flat_map]. rewrite forallb_app, IH, andb_true_r.
  unfold drawProjectile. destruct (active p); [|reflexivity].
  rewrite !forallb_app, rim_turn_calls. reflexivity.
Qed.

Lemma main_loop_turn_calls (turns : list Turn) :
  forall g, forallb turn_call (snd (main_loop turns g)) = true.
Proof.
  induction turns as [|i turns IH]; intros g; [reflexivity|].
  cbn [main_loop]. destruct (shouldClose g); [reflexivity|].
  unfold turn. specialize (IH (pollEvents (polled i) (frame (clock i) (keyboard i) g))).
  destruct (main_loop turns _) as [g2 calls2]. cbn [snd] in *.
  rewrite !forallb_app, render_turn_calls, IH. reflexivity.
Qed.

Lemma filter_none {A : Type} (f h : A -> bool) (l : list A) :
  (forall a, h a = true -> f a = false) -> forallb h l = true -> filter f l = [].
Proof.
  intros Hfh. induction l as [|a l IH]; [reflexivity|].
  cbn. intros [Ha Hl]%andb_prop. rewrite (Hfh a Ha). now apply IH.
Qed.

Lemma main_loop_no_terminate (turns : list Turn) (g : Globals) :
  filter is_terminate (snd (main_loop turns g)) = []
  /\ filter is_cerr (snd (main_loop turns g)) = [].
Proof.
  split; apply (filter_none _ turn_call); try apply main_loop_turn_calls;
    intros c; unfold turn_call; destruct c; cbn; congruence.
Qed.
End MainFacts.

Section Prefix.
Lemma split_after_prefix {A : Type} (h : A -> bool) (P : list A) :
  forall (R pre post : list A) (c : A),
    P ++ R = pre ++ c :: post ->
    forallb (fun a => negb (h a)) P = true -> h c = true ->
    exists l, pre = P ++ l.
Proof.
  induction P as [|a P IH]; intros R pre post c Heq HP Hc.
  - now exists pre.
  - cbn in HP. apply andb_prop in HP as [Ha HP]. destruct pre as [|b pre].
    + cbn in Heq. injection Heq as -> _. rewrite Hc in Ha. discriminate.
    + cbn in Heq. injection Heq as -> Heq.
      destruct (IH R pre post c Heq HP Hc) as [l ->]. now exists l.
Qed.

Lemma no_split_without {A : Type} (h : A -> bool) (l pre post : list A) (c : A) :
  l = pre ++ c :: post -> forallb (fun a => negb (h a)) l = true -> h c = true -> False.
Proof.
  intros -> Hl Hc. rewrite forallb_app in Hl. cbn in Hl. rewrite Hc in Hl. cbn in Hl.
  now rewrite andb_false_r in Hl.
Qed.
End Prefix.

(** X14.  Start-up and exit of [main], in every arithmetic and for every
    run of turns.  The exit status is 0 when [glfwInit], [glfwCreateWindow]
    and [glewInit] all succeed and -1 otherwise; on a failure no turn runs
    (the globals are the initial ones) and exactly one message goes to
    [std::cerr], on success none does.  [glfwTerminate] is called exactly
    once when the window cannot be created and at a normal exit, but not
    when [glfwInit] fails nor when [glewInit] fails: on that path the
    program returns with GLFW initialised and the window created.  No
    OpenGL call is made unless all three succeeded, and every OpenGL call
    comes after the call of [glewInit]. *)
Theorem main_start_up_and_exit :
  forall (ops : FloatOps) (libm : cmath.Libm ops)
         (platform : Platform) (turns : list Turn),
    let ok := glfwInit_ok platform && glfwCreateWindow_ok platform
              && glewInit_ok platform in
    let status := fst (fst (main platform turns)) in
    let calls := snd (main platform turns) in
    status = (if ok then 0 else -1)%Z
    /\ (ok = false -> snd (fst (main platform turns)) = initial)
    /\ length (filter is_cerr calls) = (if ok then 0 else 1)%nat
    /\ length (filter is_terminate calls)
       = (if glfwInit_ok platform
             && (negb (glfwCreateWindow_ok platform) || glewInit_ok platform)
          then 1 else 0)%nat
    /\ (existsb is_gl calls = true -> ok = true)
    /\ (forall pre c post,
          calls = pre ++ c :: post -> is_gl c = true -> In glewInit pre).
Proof.
  intros ops libm [i w e] turns. cbv zeta. unfold main.
  cbn [glfwInit_ok glfwCreateWindow_ok glewInit_ok].
  destruct i; cbn [negb andb orb fst snd];
    [|repeat split; try reflexivity; try discriminate;
      intros pre c post Heq Hc; exfalso;
      now apply (@no_split_without _ is_gl _ _ _ _ Heq)].
  destruct w; cbn [negb andb orb fst snd];
    [|repeat split; try reflexivity; try discriminate;
      intros pre c post Heq Hc; exfalso;
      now apply (@no_split_without _ is_gl _ _ _ _ Heq)].
  destruct e; cbn [negb andb orb fst snd];
    [|repeat split; try reflexivity; try discriminate;
      intros pre c post Heq Hc; exfalso;
      now apply (@no_split_without _ is_gl _ _ _ _ Heq)].
  destruct (main_loop_no_terminate turns initial) as [Ht Hc].
  destruct (main_loop turns initial) as [g calls]. cbn [fst snd] in *.
  split; [reflexivity|]. split; [discriminate|].
  split.
  { cbn [app filter is_cerr windowHints setup]. now rewrite !filter_app, Hc. }
  split.
  { cbn [app filter is_terminate windowHints setup]. now rewrite !filter_app, Ht. }
  split; [reflexivity|].
  intros pre c post Heq Hgl.
  change (([glfwInit] ++ windowHints
           ++ [glfwCreateWindow WINDOW_WIDTH WINDOW_HEIGHT "Cannon Simulator"%string;
               glfwMakeContextCurrent; glfwSetFramebufferSizeCallback; glfwSetKeyCallback;
               glewInit])
          ++ (setup ++ calls ++ [glfwTerminate]) = pre ++ c :: post) in Heq.
  destruct (@split_after_prefix _ is_gl _ _ _ _ _ Heq eq_refl Hgl) as [l ->].
  apply in_or_app. left. cbn. auto 10.
Qed.

(** The path on which [glewInit] fails. *)
Lemma main_start_up_and_exit_witness :
  let m := @main binary32 libm_at_zero (mkPlatform true true false) [] in
  fst (fst m) = (-1)%Z
  /\ snd (fst m) = initial
  /\ length (filter is_terminate (snd m)) = 0%nat.
Proof.
  cbv zeta.
  destruct (@main_start_up_and_exit binary32 libm_at_zero (mkPlatform true true false) [])
    as (Hs & Hg & _ & Ht & _).
  split; [exact Hs|]. split; [apply Hg; reflexivity | exact Ht].
Defined.

(** X15.  ESCAPE ends the run at the end of its turn, in every arithmetic:
    when one of the key events delivered at the end of a turn is ESCAPE
    pressed, that turn is completed (its update, its pruning and its
    rendering are done) and none of the turns that would follow runs: the
    globals at the exit of the loop are those after that turn's events, and
    the loop makes one more call only, the test of the close flag. *)
Theorem escape_ends_the_run :
  forall (ops : FloatOps) (libm : cmath.Libm ops)
         (i next : Turn) (rest : list Turn) (g : Globals),
    shouldClose g = false ->
    existsb is_escape_press (polled i) = true ->
    main_loop (i :: next :: rest) g
    = (pollEvents (polled i) (frame (clock i) (keyboard i) g),
       [glfwWindowShouldClose] ++ snd (turn i g) ++ [glfwWindowShouldClose]).
Proof.
  intros ops libm i next rest g Hopen Hesc.
  cbn [main_loop]. rewrite Hopen. unfold turn at 1. cbn [snd].
  set (g1 := pollEvents (polled i) (frame (clock i) (keyboard i) g)).
  assert (Hclosed : shouldClose g1 = true).
  { subst g1. rewrite pollEvents_fields. cbn [shouldClose]. rewrite Hesc.
    apply orb_true_r. }
  rewrite Hclosed. reflexivity.
Qed.

(** ESCAPE pressed during the first turn of a run in binary32. *)
Lemma escape_ends_the_run_witness :
  let quit := @mkTurn binary32 (flit 1.0) (Build_Keyboard false false false false)
                [(KEY_ESCAPE, PRESS)] in
  let idle := @mkTurn binary32 (flit 2.0) (Build_Keyboard true false false false) [] in
  fst (@main_loop binary32 libm_at_zero [quit; idle; idle] initial)
  = pollEvents (polled quit) (@frame binary32 libm_at_zero (clock quit) (keyboard quit) initial).
Proof.
  cbv zeta. rewrite escape_ends_the_run; reflexivity.
Defined.
